(** * ProjectObsidian: registries, packet strings and capability gating

    A shallow embedding of the block manager ([obsidian/blocks.py]), the
    directional packet managers and the string helpers
    ([obsidian/packet.py]), and the two join-time senders of the CPE modules
    ([modules/cpe/texthotkey.py], [modules/clickdistance.py]), followed by
    the properties of the specification that concern them. *)

From Stdlib Require Import List String Ascii ZArith NArith Bool Lia.
From Stdlib.Strings Require Import Byte.
Import ListNotations.

Local Open Scope Z_scope.
Local Open Scope string_scope.
Local Open Scope list_scope.

Set Implicit Arguments.

(** ** Python values the code relies on *)

(** A Python [dict] keeps its items in insertion order; assigning to a key
    that is present replaces the value in place, assigning to a new key
    appends the item.  The scans of [getBlock], [getPacket] and
    [getPacketById] depend on that order, so a dictionary is an association
    list without repeated keys. *)
Section PyDict.

Variables K V : Type.
Variable eqb : K -> K -> bool.

Definition pydict : Type := list (K * V).

(* [d.get(k)] *)
Fixpoint dict_get (k : K) (d : pydict) : option V :=
  match d with
  | [] => None
  | (k', v) :: r => if eqb k k' then Some v else dict_get k r
  end.

(* [k in d] *)
Definition dict_in (k : K) (d : pydict) : bool :=
  match dict_get k d with Some _ => true | None => false end.

(* [d[k] = v] *)
Fixpoint dict_set (k : K) (v : V) (d : pydict) : pydict :=
  match d with
  | [] => [(k, v)]
  | (k', v') :: r =>
      if eqb k k' then (k', v) :: r else (k', v') :: dict_set k v r
  end.

(* [d.keys()], [d.values()]; [d.items()] is the list itself *)
Definition dict_keys (d : pydict) : list K := map fst d.
Definition dict_values (d : pydict) : list V := map snd d.

End PyDict.

(** A Python [str] is a sequence of code points; [string] holds those below
    256.  On them [str.lower()] moves [A-Z] and the Latin-1 capitals
    (U+00C0..U+00DE without the sign U+00D7) 32 places up and keeps every
    other character. *)
Definition lower_char (c : ascii) : ascii :=
  let n := N_of_ascii c in
  if ((65 <=? n) && (n <=? 90)
      || (192 <=? n) && (n <=? 222) && negb (n =? 215))%N
  then ascii_of_N (n + 32)
  else c.

Fixpoint lower (s : string) : string :=
  match s with
  | EmptyString => EmptyString
  | String c r => String (lower_char c) (lower r)
  end.

(* [" " in s] *)
Fixpoint has_space (s : string) : bool :=
  match s with
  | EmptyString => false
  | String c r => Ascii.eqb c " " || has_space r
  end.

(** Values of different types compared by [in]: an [int] never equals a
    [str]. *)
Inductive pyval : Type :=
| PyInt (z : Z)
| PyStr (s : string).

Definition py_eqb (a b : pyval) : bool :=
  match a, b with
  | PyInt x, PyInt y => Z.eqb x y
  | PyStr x, PyStr y => String.eqb x y
  | _, _ => false
  end.

(* [x in l] for a list, or for the keys of a dict *)
Definition py_in (x : pyval) (l : list pyval) : bool := existsb (py_eqb x) l.

(** ** Exceptions, the log, and the monad of a manager method *)

Inductive Conflict : Type := NameRegistered | IdRegistered.

Inductive PyError : Type :=
| InitRegisterError (why : Conflict)
| KeyError (key : string)
| KeyErrorId (key : Z)
| BlockError (blockId : Z)
| PacketError (packetId : Z)
| TypeError
| ServerError
| UnicodeEncodeError
| StructError.

Inductive LogLevel : Type := VERBOSE | DEBUG | INFO | WARN.

(** One constructor per message of the source; the fields are the values
    its f-string formats. *)
Inductive LogMessage : Type :=
| Registering (name module : string)
| WhiteSpaceInName (name : string)
| OverrideWithoutTarget (name : string) (id : Z) (module : string)
| Overriding (name old : string) (id : Z)
| AddingToCache (id : Z)
| SendingHotkeys
| SendingHotkey (label : string)
| SkippingHotkeys
| SettingClickDistance (distance : Z) (username : string).

Definition LogRecord : Type := (LogLevel * LogMessage)%type.

Inductive outcome (A : Type) : Type :=
| Return (a : A)
| Raise (e : PyError).

Arguments Raise {A} e.

(** A method of an object with state [S]: it returns or raises, leaves a
    state behind in both cases, and writes log records. *)
Definition M (S A : Type) : Type := S -> outcome A * S * list LogRecord.

Definition ret {S A} (a : A) : M S A := fun s => (Return a, s, []).

Definition raise {S A} (e : PyError) : M S A := fun s => (Raise e, s, []).

Definition bind {S A B} (m : M S A) (f : A -> M S B) : M S B :=
  fun s =>
    match m s with
    | (Return a, s1, l1) =>
        match f a s1 with
        | (r, s2, l2) => (r, s2, l1 ++ l2)
        end
    | (Raise e, s1, l1) => (Raise e, s1, l1)
    end.

Definition get {S} : M S S := fun s => (Return s, s, []).

Definition put {S} (s' : S) : M S unit := fun _ => (Return tt, s', []).

Definition emit {S} (lvl : LogLevel) (msg : LogMessage) : M S unit :=
  fun s => (Return tt, s, [(lvl, msg)]).

Definition pass {S} : M S unit := ret tt.

Declare Scope py_scope.
Delimit Scope py_scope with py.
Notation "x <- m ;; k" := (bind m (fun x => k))
  (at level 61, m at next level, right associativity) : py_scope.
Notation "m ;; k" := (bind m (fun _ => k))
  (at level 61, right associativity) : py_scope.

Definition result {S A} (r : outcome A * S * list LogRecord) : outcome A :=
  fst (fst r).
Definition state_after {S A} (r : outcome A * S * list LogRecord) : S :=
  snd (fst r).
Definition logged {S A} (r : outcome A * S * list LogRecord) : list LogRecord :=
  snd r.

(* [d[k]] read access: KeyError when the key is absent *)
Definition getitem_str {S V} (k : string) (d : pydict string V) : M S V :=
  match dict_get String.eqb k d with
  | Some v => ret v
  | None => raise (KeyError k)
  end.

Definition getitem_int {S V} (k : Z) (d : pydict Z V) : M S V :=
  match dict_get Z.eqb k d with
  | Some v => ret v
  | None => raise (KeyErrorId k)
  end.

(** ** obsidian/module.py *)
Module module.

Record AbstractModule : Type := {
  NAME : string;
  DESCRIPTION : string;
  VERSION : string
}.

End module.

(** ** obsidian/blocks.py *)
Module blocks.

(** The object [_initSubmodule] hands back: the class's attributes together
    with the owning module.  Objects are never mutated after registration. *)
Record AbstractBlock : Type := {
  NAME : string;
  ID : Z;
  OVERRIDE : bool;
  MODULE : module.AbstractModule
}.

Record _BlockManager : Type := {
  _blockDict : pydict string AbstractBlock;
  _blockIds : pydict Z AbstractBlock
}.

(* [__init__] *)
Definition BlockManager : _BlockManager :=
  {| _blockDict := []; _blockIds := [] |}.

Local Open Scope py_scope.

Definition register (block : AbstractBlock) : M _BlockManager AbstractBlock :=
  emit DEBUG (Registering (NAME block) (module.NAME (MODULE block))) ;;
  (if has_space (NAME block)
   then emit WARN (WhiteSpaceInName (NAME block))
   else pass) ;;
  (if OVERRIDE block then
     self <- get ;;
     if negb (dict_in Z.eqb (ID block) (_blockIds self))
        && negb (dict_in String.eqb (NAME block) (_blockDict self))
     then emit WARN (OverrideWithoutTarget (NAME block) (ID block)
                       (module.NAME (MODULE block)))
     else
       (* the message formats self._blockIds[block.ID].NAME *)
       old <- getitem_int (ID block) (_blockIds self) ;;
       emit DEBUG (Overriding (NAME block) (NAME old) (ID block))
   else pass) ;;
  self <- get ;;
  (if dict_in String.eqb (NAME block) (_blockDict self)
      && negb (OVERRIDE block)
   then raise (InitRegisterError NameRegistered)
   else pass) ;;
  emit VERBOSE (AddingToCache (ID block)) ;;
  self <- get ;;
  (if negb (dict_in Z.eqb (ID block) (_blockIds self)) || OVERRIDE block
   then put {| _blockDict := _blockDict self;
               _blockIds := dict_set Z.eqb (ID block) block (_blockIds self) |}
   else raise (InitRegisterError IdRegistered)) ;;
  self <- get ;;
  put {| _blockDict := dict_set String.eqb (NAME block) block (_blockDict self);
         _blockIds := _blockIds self |} ;;
  ret block.

Definition getAllBlockIds (self : _BlockManager) : list Z :=
  dict_keys (_blockIds self).

Definition getBlockById (blockId : Z) : M _BlockManager AbstractBlock :=
  self <- get ;;
  if dict_in Z.eqb blockId (_blockIds self)
  then getitem_int blockId (_blockIds self)
  else raise (BlockError blockId).

(* the loop of [getBlock] over [self._blockDict.items()] *)
Fixpoint scan (items : pydict string AbstractBlock) (block : string)
  : option AbstractBlock :=
  match items with
  | [] => None
  | (bName, bObject) :: rest =>
      if String.eqb (lower bName) (lower block) then Some bObject
      else scan rest block
  end.

Definition getBlock (block : string) (ignoreCase : bool)
  : M _BlockManager AbstractBlock :=
  self <- get ;;
  if ignoreCase then
    match scan (_blockDict self) block with
    | Some bObject => ret bObject
    | None => raise (KeyError block)
    end
  else getitem_str block (_blockDict self).

Definition __len__ (self : _BlockManager) : nat :=
  List.length (_blockDict self).

Definition __contains__ (self : _BlockManager) (block : string) : bool :=
  dict_in String.eqb block (_blockDict self).

End blocks.

(** ** obsidian/packet.py *)
Module packet.

Inductive PacketDirections : Type := REQUEST | RESPONSE | NONE.

(** *** Fixed-width strings

    Both helpers are modelled at their default [encoding="ascii"], the only
    one the callers use.  A [bytearray] is a list of bytes. *)

(* [str.isspace] on the characters an ASCII decode can produce: TAB..CR,
   FS..US and the space *)
Definition isspace (c : ascii) : bool :=
  let n := N_of_ascii c in
  ((9 <=? n) && (n <=? 13) || (28 <=? n) && (n <=? 32))%N.

Fixpoint lstrip (s : string) : string :=
  match s with
  | EmptyString => EmptyString
  | String c r => if isspace c then lstrip r else s
  end.

Fixpoint rstrip (s : string) : string :=
  match s with
  | EmptyString => EmptyString
  | String c r =>
      match rstrip r with
      | EmptyString => if isspace c then EmptyString else String c EmptyString
      | r' => String c r'
      end
  end.

(* [s.strip()] *)
Definition strip (s : string) : string := lstrip (rstrip s).

(* [data.replace(b'\x00', b'')] *)
Definition replace_nul (data : list byte) : list byte :=
  filter (fun b => negb (Byte.eqb b x00)) data.

(* [bytes.decode("ascii", errors="ignore")]: bytes from 0x80 on are dropped *)
Fixpoint decode_ignore (data : list byte) : string :=
  match data with
  | [] => EmptyString
  | b :: r =>
      if (Byte.to_N b <? 128)%N
      then String (ascii_of_byte b) (decode_ignore r)
      else decode_ignore r
  end.

Definition unpackString (data : list byte) : string :=
  strip (decode_ignore (replace_nul data)).

(* [data[:maxSize]], a negative bound counting from the end *)
Definition slice_to (maxSize : Z) (data : string) : string :=
  if (0 <=? maxSize)%Z
  then substring 0 (Z.to_nat maxSize) data
  else substring 0 (String.length data - Z.to_nat (- maxSize)) data.

Fixpoint spaces (n : nat) : string :=
  match n with
  | O => EmptyString
  | S m => String " " (spaces m)
  end.

(* [s.ljust(width)] *)
Definition ljust (width : Z) (s : string) : string :=
  (s ++ spaces (Z.to_nat width - String.length s))%string.

(* [bytearray(s, "ascii")]: strict, a character from 0x80 on raises *)
Fixpoint encode_ascii (s : string) : option (list byte) :=
  match s with
  | EmptyString => Some []
  | String c r =>
      if (N_of_ascii c <? 128)%N
      then option_map (cons (byte_of_ascii c)) (encode_ascii r)
      else None
  end.

Definition packageString (data : string) (maxSize : Z) : outcome (list byte) :=
  match encode_ascii (ljust maxSize (slice_to maxSize data)) with
  | Some bytes => Return bytes
  | None => Raise UnicodeEncodeError
  end.

(** *** Packet skeletons *)

(** Which skeleton a packet class extends; only a request packet has
    [PLAYERLOOP]. *)
Inductive Skeleton : Type :=
| AbstractRequestPacket (PLAYERLOOP : bool)
| AbstractResponsePacket.

(** The object [_initSubmodule] hands back.  [packetClass.NAME] and
    [packet.NAME] are the one [NAME]. *)
Record AbstractPacket : Type := {
  NAME : string;
  ID : Z;
  FORMAT : string;
  CRITICAL : bool;
  OVERRIDE : bool;
  MODULE : module.AbstractModule;
  skeleton : Skeleton
}.

(** *** The directional manager *)

(** [loopPackets] is an attribute of the REQUEST manager only. *)
Record _DirectionalPacketManager : Type := {
  _packetDict : pydict string AbstractPacket;
  direction : PacketDirections;
  loopPackets : option (pydict Z AbstractPacket)
}.

(* [__init__] *)
Definition _DirectionalPacketManager_init (direction : PacketDirections)
  : _DirectionalPacketManager :=
  {| _packetDict := [];
     direction := direction;
     loopPackets := match direction with
                    | REQUEST => Some []
                    | _ => None
                    end |}.

Local Open Scope py_scope.

Definition getAllPacketIds (self : _DirectionalPacketManager) : list Z :=
  map ID (dict_values (_packetDict self)).

(* the loop of [getPacketById] over [self._packetDict.values()] *)
Fixpoint scan_id (values : list AbstractPacket) (packetId : Z)
  : option AbstractPacket :=
  match values with
  | [] => None
  | packet :: rest =>
      if Z.eqb (ID packet) packetId then Some packet else scan_id rest packetId
  end.

Definition getPacketById (packetId : Z)
  : M _DirectionalPacketManager AbstractPacket :=
  self <- get ;;
  match scan_id (dict_values (_packetDict self)) packetId with
  | Some packet => ret packet
  | None => raise (PacketError packetId)
  end.

(* the loop of [getPacket] over [self._packetDict.items()] *)
Fixpoint scan (items : pydict string AbstractPacket) (packet : string)
  : option AbstractPacket :=
  match items with
  | [] => None
  | (pName, pObject) :: rest =>
      if String.eqb (lower pName) (lower packet) then Some pObject
      else scan rest packet
  end.

Definition getPacket (packet : string) (ignoreCase : bool)
  : M _DirectionalPacketManager AbstractPacket :=
  self <- get ;;
  if ignoreCase then
    match scan (_packetDict self) packet with
    | Some pObject => ret pObject
    | None => raise (KeyError packet)
    end
  else getitem_str packet (_packetDict self).

(* [self.loopPackets[packet.ID] = packet].  Where the attribute is missing
   the lookup falls to [__getattr__], that is [getPacket("loopPackets")];
   a packet it finds takes no item assignment. *)
Definition loopPackets_setitem (packet : AbstractPacket)
  : M _DirectionalPacketManager unit :=
  self <- get ;;
  match loopPackets self with
  | Some cache =>
      put {| _packetDict := _packetDict self;
             direction := direction self;
             loopPackets := Some (dict_set Z.eqb (ID packet) packet cache) |}
  | None => getPacket "loopPackets" true ;; raise TypeError
  end.

Definition register (packet : AbstractPacket)
  : M _DirectionalPacketManager AbstractPacket :=
  emit DEBUG (Registering (NAME packet) (module.NAME (MODULE packet))) ;;
  (if has_space (NAME packet)
   then emit WARN (WhiteSpaceInName (NAME packet))
   else pass) ;;
  (if OVERRIDE packet then
     self <- get ;;
     if negb (py_in (PyInt (ID packet))
                (map PyStr (dict_keys (_packetDict self))))
        && negb (py_in (PyStr (NAME packet))
                   (map PyInt (getAllPacketIds self)))
     then emit WARN (OverrideWithoutTarget (NAME packet) (ID packet)
                       (module.NAME (MODULE packet)))
     else
       (* the message formats self._packetDict[packet.NAME].NAME *)
       old <- getitem_str (NAME packet) (_packetDict self) ;;
       emit DEBUG (Overriding (NAME packet) (NAME old) (ID packet))
   else pass) ;;
  self <- get ;;
  (if dict_in String.eqb (NAME packet) (_packetDict self)
      && negb (OVERRIDE packet)
   then raise (InitRegisterError NameRegistered)
   else pass) ;;
  self <- get ;;
  (if existsb (Z.eqb (ID packet)) (getAllPacketIds self)
      && negb (OVERRIDE packet)
   then raise (InitRegisterError IdRegistered)
   else pass) ;;
  match skeleton packet with
  | AbstractRequestPacket PLAYERLOOP =>
      if PLAYERLOOP
      then emit VERBOSE (AddingToCache (ID packet)) ;;
           loopPackets_setitem packet
      else pass
  | AbstractResponsePacket => pass
  end ;;
  self <- get ;;
  put {| _packetDict := dict_set String.eqb (NAME packet) packet (_packetDict self);
         direction := direction self;
         loopPackets := loopPackets self |} ;;
  ret packet.

Definition __len__ (self : _DirectionalPacketManager) : nat :=
  List.length (_packetDict self).

Definition __contains__ (self : _DirectionalPacketManager) (packet : string)
  : bool :=
  dict_in String.eqb packet (_packetDict self).

(** *** The packet manager singleton *)
Record _PacketManager : Type := {
  RequestManager : _DirectionalPacketManager;
  ResponseManager : _DirectionalPacketManager
}.

Definition PacketManager : _PacketManager :=
  {| RequestManager := _DirectionalPacketManager_init REQUEST;
     ResponseManager := _DirectionalPacketManager_init RESPONSE |}.

Definition _PacketManager__contains__ (self : _PacketManager) (packet : string)
  : bool :=
  __contains__ (RequestManager self) packet
  || __contains__ (ResponseManager self) packet.

End packet.

(** ** Padding *)

(* every character is white space *)
Fixpoint all_space (s : string) : bool :=
  match s with
  | EmptyString => true
  | String c r => packet.isspace c && all_space r
  end.

(* the bytes [unpackString] turns into characters: ASCII and not NUL *)
Definition decodable (b : byte) : bool :=
  negb (Byte.eqb b x00) && (Byte.to_N b <? 128)%N.

(* the characters a fixed-width field carries back unchanged *)
Fixpoint plain_text (s : string) : bool :=
  match s with
  | EmptyString => true
  | String c r =>
      negb (Ascii.eqb c zero) && (N_of_ascii c <? 128)%N && plain_text r
  end.

(** ** Python's [struct] module, network byte order

    [struct.pack] and [struct.unpack] for the format characters the packets
    of the sources use: "B", "h", "i" and "<n>s", after the "!" prefix
    (big-endian, standard sizes, no padding). *)
Module struct.
Local Open Scope Z_scope.

Inductive Code : Type :=
| Code_B
| Code_h
| Code_i
| Code_s (count : nat).

Inductive Value : Type :=
| PInt (z : Z)
| PBytes (data : list byte).

Definition byte_of_Z (z : Z) : byte :=
  match Byte.of_N (Z.to_N z) with
  | Some b => b
  | None => x00
  end.

Definition Z_of_byte (b : byte) : Z := Z.of_N (Byte.to_N b).

(* the [n] low-order bytes of [u], most significant first *)
Fixpoint be_bytes (n : nat) (u : Z) : list byte :=
  match n with
  | O => []
  | S m => be_bytes m (u / 256) ++ [byte_of_Z (u mod 256)]
  end.

(* the unsigned number a byte sequence spells, most significant first *)
Definition be_value (data : list byte) : Z :=
  fold_left (fun acc b => acc * 256 + Z_of_byte b) data 0.

(* two's complement reading of an unsigned [bits]-bit number *)
Definition signed (bits : Z) (u : Z) : Z :=
  if u <? 2 ^ (bits - 1) then u else u - 2 ^ bits.

Definition size (c : Code) : nat :=
  match c with
  | Code_B => 1
  | Code_h => 2
  | Code_i => 4
  | Code_s count => count
  end.

(* [struct.calcsize] *)
Definition calcsize (codes : list Code) : nat :=
  fold_right (fun c acc => (size c + acc)%nat) O codes.

(* a bytes argument of "<n>s": cut, or filled with NUL, to [n] bytes *)
Definition fit (count : nat) (data : list byte) : list byte :=
  firstn count data ++ repeat x00 (count - List.length data).

Definition pack_one (c : Code) (v : Value) : outcome (list byte) :=
  match c, v with
  | Code_B, PInt z =>
      if (0 <=? z) && (z <=? 255)
      then Return (be_bytes 1 z) else Raise StructError
  | Code_h, PInt z =>
      if (-32768 <=? z) && (z <=? 32767)
      then Return (be_bytes 2 (z mod 2 ^ 16)) else Raise StructError
  | Code_i, PInt z =>
      if (-2147483648 <=? z) && (z <=? 2147483647)
      then Return (be_bytes 4 (z mod 2 ^ 32)) else Raise StructError
  | Code_s count, PBytes data => Return (fit count data)
  | _, _ => Raise StructError
  end.

Fixpoint pack (codes : list Code) (values : list Value)
  : outcome (list byte) :=
  match codes, values with
  | [], [] => Return []
  | c :: codes', v :: values' =>
      match pack_one c v with
      | Return chunk =>
          match pack codes' values' with
          | Return rest => Return (chunk ++ rest)
          | Raise e => Raise e
          end
      | Raise e => Raise e
      end
  | _, _ => Raise StructError
  end.

Definition unpack_one (c : Code) (chunk : list byte) : Value :=
  match c with
  | Code_B => PInt (be_value chunk)
  | Code_h => PInt (signed 16 (be_value chunk))
  | Code_i => PInt (signed 32 (be_value chunk))
  | Code_s _ => PBytes chunk
  end.

(* the fields of a buffer, once its length is known to be right *)
Fixpoint split_fields (codes : list Code) (data : list byte) : list Value :=
  match codes with
  | [] => []
  | c :: codes' =>
      unpack_one c (firstn (size c) data)
      :: split_fields codes' (skipn (size c) data)
  end.

Definition unpack (codes : list Code) (data : list byte)
  : outcome (list Value) :=
  if Nat.eqb (List.length data) (calcsize codes)
  then Return (split_fields codes data)
  else Raise StructError.

(** Format strings: "!" and then format characters, each with an optional
    decimal count in front. *)
Definition digit (c : ascii) : option nat :=
  let n := nat_of_ascii c in
  if ((48 <=? n) && (n <=? 57))%nat then Some (n - 48)%nat else None.

Definition repeated (count : option nat) (c : Code) : list Code :=
  match count with
  | None => [c]
  | Some n => repeat c n
  end.

Fixpoint parse_codes (fmt : string) (count : option nat)
  : option (list Code) :=
  match fmt with
  | EmptyString =>
      match count with
      | None => Some []
      | Some _ => None
      end
  | String c rest =>
      match digit c with
      | Some d =>
          parse_codes rest
            (Some (10 * match count with Some n => n | None => O end + d)%nat)
      | None =>
          if Ascii.eqb c "B"
          then option_map (app (repeated count Code_B)) (parse_codes rest None)
          else if Ascii.eqb c "h"
          then option_map (app (repeated count Code_h)) (parse_codes rest None)
          else if Ascii.eqb c "i"
          then option_map (app (repeated count Code_i)) (parse_codes rest None)
          else if Ascii.eqb c "s"
          then option_map
                 (cons (Code_s match count with Some n => n | None => 1%nat end))
                 (parse_codes rest None)
          else None
      end
  end.

Definition parse_format (fmt : string) : option (list Code) :=
  match fmt with
  | String "!" rest => parse_codes rest None
  | _ => None
  end.

(* [struct.pack(fmt, *values)] *)
Definition pack_format (fmt : string) (values : list Value)
  : outcome (list byte) :=
  match parse_format fmt with
  | Some codes => pack codes values
  | None => Raise StructError
  end.

End struct.

(** ** The packet codec *)
Module codec.
Local Open Scope Z_scope.

(** Modelled from the spec: the sources hold the packing side only
    ([serialize], [packageString], [unpackString]); no packet of theirs
    decodes.  Sections 3 and 4.2 give a layout as an ordered list of
    fixed-width fields (byte, short, int, fixed-width padded string, raw
    bytes), [encode] as the fields in declared order in network byte order,
    [decode] as its inverse and [size] as the sum of the widths.  The
    integers have the signs of the formats in the sources (unsigned byte,
    signed short and int); a string field goes through [packageString] and
    [unpackString]. *)
Inductive Field : Type :=
| FByte
| FShort
| FInt
| FString (width : nat)
| FRaw (width : nat).

Inductive Value : Type :=
| VInt (z : Z)
| VString (s : string)
| VRaw (data : list byte).

Definition code_of (f : Field) : struct.Code :=
  match f with
  | FByte => struct.Code_B
  | FShort => struct.Code_h
  | FInt => struct.Code_i
  | FString width => struct.Code_s width
  | FRaw width => struct.Code_s width
  end.

(** Modelled from the spec: [size], the fixed sum of the field widths. *)
Definition size (layout : list Field) : nat :=
  struct.calcsize (map code_of layout).

Definition to_struct (f : Field) (v : Value) : outcome struct.Value :=
  match f, v with
  | FByte, VInt z | FShort, VInt z | FInt, VInt z => Return (struct.PInt z)
  | FString width, VString s =>
      match packet.packageString s (Z.of_nat width) with
      | Return data => Return (struct.PBytes data)
      | Raise e => Raise e
      end
  | FRaw _, VRaw data => Return (struct.PBytes data)
  | _, _ => Raise StructError
  end.

Fixpoint arguments (layout : list Field) (values : list Value)
  : outcome (list struct.Value) :=
  match layout, values with
  | [], [] => Return []
  | f :: layout', v :: values' =>
      match to_struct f v with
      | Return a =>
          match arguments layout' values' with
          | Return rest => Return (a :: rest)
          | Raise e => Raise e
          end
      | Raise e => Raise e
      end
  | _, _ => Raise StructError
  end.

(** Modelled from the spec: [encode], every field in declared order into one
    byte sequence, as the [serialize] methods of the sources do with
    [struct.pack]. *)
Definition encode (layout : list Field) (values : list Value)
  : outcome (list byte) :=
  match arguments layout values with
  | Return args => struct.pack (map code_of layout) args
  | Raise e => Raise e
  end.

Definition of_struct (f : Field) (v : struct.Value) : Value :=
  match f, v with
  | FString _, struct.PBytes data => VString (packet.unpackString data)
  | _, struct.PBytes data => VRaw data
  | _, struct.PInt z => VInt z
  end.

Fixpoint typed (layout : list Field) (values : list struct.Value)
  : list Value :=
  match layout, values with
  | f :: layout', v :: values' => of_struct f v :: typed layout' values'
  | _, _ => []
  end.

(** Modelled from the spec: [decode], the typed values of a byte sequence of
    the layout's size. *)
Definition decode (layout : list Field) (data : list byte)
  : outcome (list Value) :=
  match struct.unpack (map code_of layout) data with
  | Return values => Return (typed layout values)
  | Raise e => Raise e
  end.

(** The values each kind of field carries back unchanged. *)
Definition in_range (f : Field) (v : Value) : Prop :=
  match f, v with
  | FByte, VInt z => 0 <= z <= 255
  | FShort, VInt z => -32768 <= z <= 32767
  | FInt, VInt z => -2147483648 <= z <= 2147483647
  | FString width, VString s =>
      (String.length s <= width)%nat
      /\ plain_text s = true
      /\ packet.strip s = s
  | FRaw width, VRaw data => List.length data = width
  | _, _ => False
  end.

End codec.

(** ** obsidian/cpe.py and the connection side *)
Module cpe.

Record CPEExtension : Type := {
  extName : string;
  extVersion : Z
}.

Definition CPEExtension_eqb (a b : CPEExtension) : bool :=
  String.eqb (extName a) (extName b) && Z.eqb (extVersion a) (extVersion b).

End cpe.

Module network.

(** Modelled from the spec: the [Player] class and its [supports] are not
    among the sources.  A connection holds the capability set its handshake
    negotiated, and [supports] is the side-effect free membership test on
    that set (section 4.4). *)
Record Player : Type := {
  username : string;
  capabilities : list cpe.CPEExtension
}.

Definition supports (self : Player) (ext : cpe.CPEExtension) : bool :=
  existsb (cpe.CPEExtension_eqb ext) (capabilities self).

Inductive Arg : Type :=
| AInt (z : Z)
| AStr (s : string).

(** One call of the dispatcher's [sendPacket]: the receiving player, the
    packet and its arguments. *)
Record Sent : Type := {
  receiver : Player;
  sentPacket : packet.AbstractPacket;
  sentArgs : list Arg
}.

(** What a sender reads and writes: the response registry behind
    [Packets.Response] and the packets handed to dispatchers so far. *)
Record Server : Type := {
  Response : packet._DirectionalPacketManager;
  outbox : list Sent
}.

Record NetworkHandler : Type := {
  player : option Player;
  connectionInfo : string
}.

(* [Packets.Response.<name>]: the attribute is resolved by [__getattr__],
   that is by [getPacket(name)] *)
Definition Packets_Response (name : string) : M Server packet.AbstractPacket :=
  fun s =>
    match packet.getPacket name true (Response s) with
    | (r, _, l) => (r, s, l)
    end.

(** Modelled from the spec: the dispatcher is not among the sources; its
    [sendPacket] encodes the packet and writes it to the connection
    (section 6), recorded here as one more entry of [outbox]. *)
Definition sendPacket (to : Player) (p : packet.AbstractPacket)
  (args : list Arg) : M Server unit :=
  fun s =>
    (Return tt,
     {| Response := Response s;
        outbox := outbox s
                  ++ [{| receiver := to; sentPacket := p; sentArgs := args |}] |},
     []).

End network.

(** ** obsidian/modules/cpe/texthotkey.py *)
Module texthotkey.
Import network.
Local Open Scope py_scope.

(** An item of [config.hotkeys] as [sendTextHotkeys] subscripts it: a dict
    in which the three keys are present. *)
Record Hotkey : Type := {
  action : string;
  keyCode : Z;
  keyMods : Z
}.

Definition extension : cpe.CPEExtension :=
  {| cpe.extName := "TextHotKey"; cpe.extVersion := 1 |}.

(* [for label, data in hotkeys.items(): ...] *)
Fixpoint send_each (to : Player) (hotkeys : pydict string Hotkey)
  : M Server unit :=
  match hotkeys with
  | [] => pass
  | (label, data) :: rest =>
      emit DEBUG (SendingHotkey label) ;;
      p <- Packets_Response "SetTextHotKey" ;;
      sendPacket to p
        [AStr label; AStr (action data); AInt (keyCode data);
         AInt (keyMods data)] ;;
      send_each to rest
  end.

Definition sendTextHotkeys (hotkeys : pydict string Hotkey)
  (self : NetworkHandler) : M Server unit :=
  match player self with
  | None => raise ServerError
  | Some p =>
      if supports p extension
      then emit INFO SendingHotkeys ;; send_each p hotkeys
      else emit INFO SkippingHotkeys
  end.

(* [SetTextHotKeyPacket.__init__]: ID=0x15, FORMAT="!B64s64siB" *)
Definition SetTextHotKeyPacket (m : module.AbstractModule)
  : packet.AbstractPacket :=
  {| packet.NAME := "SetTextHotKey"; packet.ID := 21;
     packet.FORMAT := "!B64s64siB"; packet.CRITICAL := false;
     packet.OVERRIDE := false; packet.MODULE := m;
     packet.skeleton := packet.AbstractResponsePacket |}.

(* [SetTextHotKeyPacket.serialize], [packageString] at its default width *)
Definition serialize (self : packet.AbstractPacket) (label action : string)
  (keyCode keyMods : Z) : outcome (list byte) :=
  match packet.packageString label 64 with
  | Return label' =>
      match packet.packageString action 64 with
      | Return action' =>
          struct.pack_format (packet.FORMAT self)
            [struct.PInt (packet.ID self); struct.PBytes label';
             struct.PBytes action'; struct.PInt keyCode; struct.PInt keyMods]
      | Raise e => Raise e
      end
  | Raise e => Raise e
  end.

End texthotkey.

(** ** obsidian/modules/clickdistance.py *)
Module clickdistance.
Import network.
Local Open Scope py_scope.

Definition extension : cpe.CPEExtension :=
  {| cpe.extName := "ClickDistance"; cpe.extVersion := 1 |}.

Record ClickDistanceMetadata : Type := {
  distance : Z
}.

(** The world as this module sees it: the injected [clickDistance]. *)
Record World : Type := {
  clickDistance : ClickDistanceMetadata
}.

Record WorldPlayerManager : Type := {
  world : World
}.

(* injected into [Player] *)
Definition setClickDistance (self : Player) (distance : Z) : M Server unit :=
  emit INFO (SettingClickDistance distance (username self)) ;;
  p <- Packets_Response "SetClickDistance" ;;
  sendPacket self p [AInt distance].

(* injected after [WorldPlayerManager.joinPlayer] *)
Definition sendClickDistance (self : WorldPlayerManager) (player : Player)
  : M Server unit :=
  setClickDistance player (distance (clickDistance (world self))).

(* [SetClickDistancePacket.__init__]: ID=0x12, FORMAT="!Bh" *)
Definition SetClickDistancePacket (m : module.AbstractModule)
  : packet.AbstractPacket :=
  {| packet.NAME := "SetClickDistance"; packet.ID := 18;
     packet.FORMAT := "!Bh"; packet.CRITICAL := false;
     packet.OVERRIDE := false; packet.MODULE := m;
     packet.skeleton := packet.AbstractResponsePacket |}.

(* [SetClickDistancePacket.serialize] *)
Definition serialize (self : packet.AbstractPacket) (distance : Z)
  : outcome (list byte) :=
  struct.pack_format (packet.FORMAT self)
    [struct.PInt (packet.ID self); struct.PInt distance].

End clickdistance.

(** ** Registration histories *)

(** The states a block manager goes through: [__init__], then any calls of
    [register], whether they return or raise. *)
Inductive blocks_reachable : blocks._BlockManager -> Prop :=
| blocks_reach_init : blocks_reachable blocks.BlockManager
| blocks_reach_register b st :
    blocks_reachable st ->
    blocks_reachable (state_after (blocks.register b st)).

(** An overriding block does not take the id of a block with another name. *)
Definition blocks_same_target (st : blocks._BlockManager)
  (b : blocks.AbstractBlock) : Prop :=
  blocks.OVERRIDE b = true ->
  forall e, dict_get Z.eqb (blocks.ID b) (blocks._blockIds st) = Some e ->
            blocks.NAME e = blocks.NAME b.

Inductive blocks_tidy : blocks._BlockManager -> Prop :=
| blocks_tidy_init : blocks_tidy blocks.BlockManager
| blocks_tidy_register b st :
    blocks_tidy st ->
    blocks_same_target st b ->
    blocks_tidy (state_after (blocks.register b st)).


Inductive packets_reachable (d : packet.PacketDirections)
  : packet._DirectionalPacketManager -> Prop :=
| packets_reach_init :
    packets_reachable d (packet._DirectionalPacketManager_init d)
| packets_reach_register p st :
    packets_reachable d st ->
    packets_reachable d (state_after (packet.register p st)).

(** An overriding packet does not take the id of a packet with another
    name. *)
Definition packets_same_target (st : packet._DirectionalPacketManager)
  (p : packet.AbstractPacket) : Prop :=
  packet.OVERRIDE p = true ->
  forall e, In e (dict_values (packet._packetDict st)) ->
            packet.ID e = packet.ID p -> packet.NAME e = packet.NAME p.

Inductive packets_tidy (d : packet.PacketDirections)
  : packet._DirectionalPacketManager -> Prop :=
| packets_tidy_init :
    packets_tidy d (packet._DirectionalPacketManager_init d)
| packets_tidy_register p st :
    packets_tidy d st ->
    packets_same_target st p ->
    packets_tidy d (state_after (packet.register p st)).

Definition packets_registered (st : packet._DirectionalPacketManager)
  (e : packet.AbstractPacket) : Prop :=
  In e (dict_values (packet._packetDict st)).

(** ** Sample modules, blocks and packets *)

Definition moduleA : module.AbstractModule :=
  {| module.NAME := "A"; module.DESCRIPTION := ""; module.VERSION := "1.0.0" |}.

Definition moduleB : module.AbstractModule :=
  {| module.NAME := "B"; module.DESCRIPTION := ""; module.VERSION := "1.0.0" |}.

Definition mkBlock (name : string) (id : Z) (m : module.AbstractModule)
  (override : bool) : blocks.AbstractBlock :=
  {| blocks.NAME := name; blocks.ID := id; blocks.OVERRIDE := override;
     blocks.MODULE := m |}.

Definition mkRequest (name : string) (id : Z) (m : module.AbstractModule)
  (override playerloop : bool) : packet.AbstractPacket :=
  {| packet.NAME := name; packet.ID := id; packet.FORMAT := "!B";
     packet.CRITICAL := false; packet.OVERRIDE := override;
     packet.MODULE := m;
     packet.skeleton := packet.AbstractRequestPacket playerloop |}.

Definition mkResponse (name : string) (id : Z) (format : string)
  (m : module.AbstractModule) (override : bool) : packet.AbstractPacket :=
  {| packet.NAME := name; packet.ID := id; packet.FORMAT := format;
     packet.CRITICAL := false; packet.OVERRIDE := override;
     packet.MODULE := m;
     packet.skeleton := packet.AbstractResponsePacket |}.

(* the state a manager is left in by a list of registrations *)
Definition blocks_after (bs : list blocks.AbstractBlock) : blocks._BlockManager :=
  fold_left (fun st b => state_after (blocks.register b st)) bs
    blocks.BlockManager.

Definition packets_after (d : packet.PacketDirections)
  (ps : list packet.AbstractPacket) : packet._DirectionalPacketManager :=
  fold_left (fun st p => state_after (packet.register p st)) ps
    (packet._DirectionalPacketManager_init d).

(** The scenario of the specification: "Stone" with id 1 from module A is
    registered, then module B brings "Stone" with id 2. *)
Definition stoneA : blocks.AbstractBlock := mkBlock "Stone" 1 moduleA false.

Definition stoneB (override : bool) : blocks.AbstractBlock :=
  mkBlock "Stone" 2 moduleB override.

Definition stone_registry : blocks._BlockManager := blocks_after [stoneA].

(* an overriding "Stone" of module B that keeps id 1 *)
Definition stone_replacement : blocks.AbstractBlock :=
  mkBlock "Stone" 1 moduleB true.

(** An override that takes the id of a block, or packet, of another name. *)
Definition dirt_override : blocks.AbstractBlock := mkBlock "Dirt" 1 moduleB true.

Definition dirt_registry : blocks._BlockManager :=
  blocks_after [stoneA; dirt_override].

Definition movement : packet.AbstractPacket :=
  mkRequest "PlayerMovement" 8 moduleA false true.

Definition movement_rival : packet.AbstractPacket :=
  mkRequest "FastMovement" 8 moduleB true true.

Definition movement_registry : packet._DirectionalPacketManager :=
  packets_after packet.REQUEST [movement].

Definition rival_registry : packet._DirectionalPacketManager :=
  packets_after packet.REQUEST [movement; movement_rival].

(* an override of "PlayerMovement" that moves it to opcode 9, off the loop *)
Definition movement_moved : packet.AbstractPacket :=
  mkRequest "PlayerMovement" 9 moduleB true false.

Definition moved_registry : packet._DirectionalPacketManager :=
  packets_after packet.REQUEST [movement; movement_moved].

(* an override of "PlayerMovement" itself *)
Definition movement_replacement : packet.AbstractPacket :=
  mkRequest "PlayerMovement" 8 moduleB true true.

(** Two names that differ in case only. *)
Definition stone_caps : blocks.AbstractBlock := mkBlock "STONE" 2 moduleB false.

Definition caps_registry : blocks._BlockManager :=
  blocks_after [stoneA; stone_caps].

Definition movement_caps : packet.AbstractPacket :=
  mkRequest "PLAYERMOVEMENT" 9 moduleB false false.

Definition caps_packets : packet._DirectionalPacketManager :=
  packets_after packet.REQUEST [movement; movement_caps].

(** The layouts of the two packets of the CPE modules. *)
Definition SetClickDistance_layout : list codec.Field :=
  [codec.FByte; codec.FShort].

Definition SetTextHotKey_layout : list codec.Field :=
  [codec.FByte; codec.FString 64; codec.FString 64; codec.FInt; codec.FByte].



(* a player who negotiated TextHotKey *)
Definition alex : network.Player :=
  {| network.username := "Alex";
     network.capabilities := [texthotkey.extension] |}.



Definition cpe_server : network.Server :=
  {| network.Response :=
       packets_after packet.RESPONSE
         [clickdistance.SetClickDistancePacket moduleA;
          texthotkey.SetTextHotKeyPacket moduleB];
     network.outbox := [] |}.

Definition spawn : clickdistance.WorldPlayerManager :=
  {| clickdistance.world :=
       {| clickdistance.clickDistance := {| clickdistance.distance := 160 |} |} |}.


(** What a successful [register] leaves behind. *)
Definition blocks_put (b : blocks.AbstractBlock) (st : blocks._BlockManager)
  : blocks._BlockManager :=
  {| blocks._blockDict :=
       dict_set String.eqb (blocks.NAME b) b (blocks._blockDict st);
     blocks._blockIds :=
       dict_set Z.eqb (blocks.ID b) b (blocks._blockIds st) |}.

Definition packets_put (p : packet.AbstractPacket)
  (st : packet._DirectionalPacketManager) : packet._DirectionalPacketManager :=
  {| packet._packetDict :=
       dict_set String.eqb (packet.NAME p) p (packet._packetDict st);
     packet.direction := packet.direction st;
     packet.loopPackets :=
       match packet.skeleton p with
       | packet.AbstractRequestPacket true =>
           option_map (dict_set Z.eqb (packet.ID p) p) (packet.loopPackets st)
       | _ => packet.loopPackets st
       end |}.

(** The name and id tests of [register] let the packet through. *)
Definition packets_accepted (p : packet.AbstractPacket)
  (st : packet._DirectionalPacketManager) : Prop :=
  packet.OVERRIDE p = true
  \/ dict_in String.eqb (packet.NAME p) (packet._packetDict st) = false
     /\ existsb (Z.eqb (packet.ID p)) (packet.getAllPacketIds st) = false.

(** The record [register] logs for an override that has no target. *)
Definition override_warning_of_block (b : blocks.AbstractBlock) : LogRecord :=
  (WARN, OverrideWithoutTarget (blocks.NAME b) (blocks.ID b)
           (module.NAME (blocks.MODULE b))).

Definition override_warning_of_packet (p : packet.AbstractPacket) : LogRecord :=
  (WARN, OverrideWithoutTarget (packet.NAME p) (packet.ID p)
           (module.NAME (packet.MODULE p))).

(** ** Invariants *)

(** Every reachable block manager: keys are distinct, an item sits under its
    own name or id, and whatever one dictionary holds is a key of the
    other. *)
Record blocks_wf (st : blocks._BlockManager) : Prop := {
  blocks_wf_names : NoDup (dict_keys (blocks._blockDict st));
  blocks_wf_ids : NoDup (dict_keys (blocks._blockIds st));
  blocks_wf_dict : forall n e, In (n, e) (blocks._blockDict st) ->
    blocks.NAME e = n
    /\ dict_in Z.eqb (blocks.ID e) (blocks._blockIds st) = true;
  blocks_wf_cache : forall i e, In (i, e) (blocks._blockIds st) ->
    blocks.ID e = i
    /\ dict_in String.eqb (blocks.NAME e) (blocks._blockDict st) = true
}.

(** The two dictionaries hold the same blocks. *)
Record blocks_agree (st : blocks._BlockManager) : Prop := {
  blocks_agree_names : NoDup (dict_keys (blocks._blockDict st));
  blocks_agree_ids : NoDup (dict_keys (blocks._blockIds st));
  blocks_agree_dict : forall n e, In (n, e) (blocks._blockDict st) ->
    blocks.NAME e = n
    /\ dict_get Z.eqb (blocks.ID e) (blocks._blockIds st) = Some e;
  blocks_agree_cache : forall i e, In (i, e) (blocks._blockIds st) ->
    blocks.ID e = i
    /\ dict_get String.eqb (blocks.NAME e) (blocks._blockDict st) = Some e
}.

Definition playerloop (p : packet.AbstractPacket) : bool :=
  match packet.skeleton p with
  | packet.AbstractRequestPacket flag => flag
  | packet.AbstractResponsePacket => false
  end.

(** Every reachable directional manager. *)
Record packets_wf (d : packet.PacketDirections)
  (st : packet._DirectionalPacketManager) : Prop := {
  packets_wf_names : NoDup (dict_keys (packet._packetDict st));
  packets_wf_dict : forall n e, In (n, e) (packet._packetDict st) ->
    packet.NAME e = n;
  packets_wf_direction : packet.direction st = d;
  packets_wf_attribute :
    packet.loopPackets st = None <-> d <> packet.REQUEST;
  packets_wf_cache : forall cache i e,
    packet.loopPackets st = Some cache -> In (i, e) cache ->
    packet.ID e = i /\ playerloop e = true
}.

(** Ids are as distinct as names, and the loop cache holds every flagged
    packet of the dictionary. *)
Record packets_agree (st : packet._DirectionalPacketManager) : Prop := {
  packets_agree_ids : forall n1 e1 n2 e2,
    In (n1, e1) (packet._packetDict st) ->
    In (n2, e2) (packet._packetDict st) ->
    packet.ID e1 = packet.ID e2 -> n1 = n2;
  packets_agree_cache : forall n e,
    In (n, e) (packet._packetDict st) -> playerloop e = true ->
    exists cache, packet.loopPackets st = Some cache
                  /\ dict_get Z.eqb (packet.ID e) cache = Some e
}.

(** * Further code of the sources *)

(** ** Exceptions outside the managers *)

(** The converters and the module checks raise kinds the managers do not;
    [Core] carries a manager's exception through, and [PlainException] is
    [Exception(message)] itself. *)
Inductive Exception : Type :=
| Core (e : PyError)
| ValueError
| ConverterError (kind argument : string)
| ModuleError (field label : string)
| PlainException (message : string).

Inductive attempt (A : Type) : Type :=
| Done (a : A)
| Failed (e : Exception).

Arguments Failed {A} e.

(* the outcome of a manager method, seen by a caller that may catch it *)
Definition call {S A} (r : outcome A * S * list LogRecord) : attempt A :=
  match result r with
  | Return a => Done a
  | Raise e => Failed (Core e)
  end.

(* [except KeyError] *)
Definition is_KeyError (e : Exception) : bool :=
  match e with
  | Core (KeyError _) | Core (KeyErrorId _) => true
  | _ => false
  end.

(** ** blocks.py: the argument converter *)
Module AbstractBlock.

Section Converter.

(** Python's [int] on a [str]; [None] stands for its ValueError. *)
Variable int : string -> option Z.

Definition _convertArgument (BlockManager : blocks._BlockManager)
  (argument : string) : attempt blocks.AbstractBlock :=
  let inner :=
    let by_id :=
      match int argument with
      | Some blockId => call (blocks.getBlockById blockId BlockManager)
      | None => Failed ValueError
      end in
    match by_id with
    | Failed (Core (BlockError _)) | Failed ValueError =>
        call (blocks.getBlock argument true BlockManager)
    | other => other
    end in
  match inner with
  | Failed e =>
      if is_KeyError e then Failed (ConverterError "Block" argument)
      else Failed e
  | found => found
  end.

End Converter.

End AbstractBlock.

(** ** packet.py: the size property and the argument converters *)
Module AbstractPacket.

(* [SIZE], for the formats [struct.parse_format] reads *)
Definition SIZE (self : packet.AbstractPacket) : outcome nat :=
  match struct.parse_format (packet.FORMAT self) with
  | Some codes => Return (struct.calcsize codes)
  | None => Raise StructError
  end.

End AbstractPacket.

Module AbstractRequestPacket.

Definition _convertArgument (PacketManager : packet._PacketManager)
  (argument : string) : attempt packet.AbstractPacket :=
  match call (packet.getPacket argument true
                (packet.RequestManager PacketManager)) with
  | Failed e =>
      if is_KeyError e then Failed (ConverterError "Request Packet" argument)
      else Failed e
  | found => found
  end.

End AbstractRequestPacket.

Module AbstractResponsePacket.

Definition _convertArgument (PacketManager : packet._PacketManager)
  (argument : string) : attempt packet.AbstractPacket :=
  match call (packet.getPacket argument true
                (packet.ResponseManager PacketManager)) with
  | Failed e =>
      if is_KeyError e then Failed (ConverterError "Response Packet" argument)
      else Failed e
  | found => found
  end.

End AbstractResponsePacket.

(** ** texthotkey.py: the check of the configured hotkeys *)
Module TextHotKeyModule.

(** A value of the configuration as its file gives it.  [hotkeys] is
    declared a dict and nothing more: no code checks what a label maps to
    before [postInit] tests it. *)
#[local] Set Warnings "-register-all".










End TextHotKeyModule.

(** ** clickdistance.py: the metadata reader and writer *)
Module ClickDistanceModule.

(* [ClickDistanceMetadata.__init__] *)
Definition ClickDistanceMetadata_init : clickdistance.ClickDistanceMetadata :=
  {| clickdistance.distance := 160 |}.

(* [ClickDistanceMetadata.setClickDistance] and the assignment to
   [.distance] *)
Definition setClickDistance (self : clickdistance.ClickDistanceMetadata)
  (distance : Z) : clickdistance.ClickDistanceMetadata :=
  {| clickdistance.distance := distance |}.

Definition getClickDistance (self : clickdistance.ClickDistanceMetadata) : Z :=
  clickdistance.distance self.

Definition readClickDistance (data : pydict string Z)
  : outcome clickdistance.ClickDistanceMetadata :=
  let clickDistanceMetadata := ClickDistanceMetadata_init in
  match dict_get String.eqb "distance" data with
  | Some distance => Return (setClickDistance clickDistanceMetadata distance)
  | None => Raise (KeyError "distance")
  end.

Definition writeClickDistance
  (distanceMetadata : clickdistance.ClickDistanceMetadata) : pydict string Z :=
  [("distance", clickdistance.distance distanceMetadata)].









End ClickDistanceModule.

(** ** Helpers of the further properties *)

(* every character is ASCII *)
Fixpoint is_ascii (s : string) : bool :=
  match s with
  | EmptyString => true
  | String c r => (N_of_ascii c <? 128)%N && is_ascii r
  end.

(* a decimal reading of digit strings, one [int] the converter may be run
   with *)
Fixpoint decimal (acc : Z) (s : string) : option Z :=
  match s with
  | EmptyString => Some acc
  | String c r =>
      match struct.digit c with
      | Some d => decimal (10 * acc + Z.of_nat d) r
      | None => None
      end
  end.

Definition int_of_digits (s : string) : option Z :=
  match s with
  | EmptyString => None
  | _ => decimal 0 s
  end.


(** * Properties *)

(** ** Dictionaries *)
Unset Implicit Arguments.

Section DictFacts.

Context {K V : Type} (eqb : K -> K -> bool).
Hypothesis eqb_eq : forall a b, eqb a b = true <-> a = b.

Lemma key_eqb_refl k : eqb k k = true.
Proof. apply eqb_eq; reflexivity. Qed.

Lemma key_eqb_neq k k' : k <> k' -> eqb k k' = false.
Proof.
  intros H. destruct (eqb k k') eqn:E; [|reflexivity].
  apply eqb_eq in E. contradiction.
Qed.

Lemma dict_get_set_same k (v : V) d :
  dict_get eqb k (dict_set eqb k v d) = Some v.
Proof.
  induction d as [|[k' v'] r IH]; simpl.
  - now rewrite key_eqb_refl.
  - destruct (eqb k k') eqn:E; simpl; rewrite E; auto.
Qed.

Lemma dict_get_set_other k k' (v : V) d :
  k' <> k -> dict_get eqb k' (dict_set eqb k v d) = dict_get eqb k' d.
Proof.
  intros N. induction d as [|[k0 v0] r IH]; simpl.
  - now rewrite (key_eqb_neq _ _ N).
  - destruct (eqb k k0) eqn:E; simpl.
    + apply eqb_eq in E; subst k0. now rewrite (key_eqb_neq _ _ N).
    + now rewrite IH.
Qed.

Lemma dict_in_true k (d : pydict K V) :
  dict_in eqb k d = true <-> exists v, dict_get eqb k d = Some v.
Proof.
  unfold dict_in. destruct (dict_get eqb k d).
  - split; eauto.
  - split; [discriminate | intros [v H]; discriminate].
Qed.

Lemma dict_in_false k (d : pydict K V) :
  dict_in eqb k d = false <-> dict_get eqb k d = None.
Proof.
  unfold dict_in. destruct (dict_get eqb k d); split; congruence.
Qed.

Lemma dict_get_In k (v : V) d : dict_get eqb k d = Some v -> In (k, v) d.
Proof.
  induction d as [|[k' v'] r IH]; simpl; [discriminate|].
  destruct (eqb k k') eqn:E.
  - apply eqb_eq in E. intros [= ->]. left; congruence.
  - auto.
Qed.

Lemma dict_get_None k (d : pydict K V) :
  dict_get eqb k d = None <-> ~ In k (dict_keys d).
Proof.
  induction d as [|[k' v'] r IH]; simpl.
  - tauto.
  - destruct (eqb k k') eqn:E.
    + apply eqb_eq in E. split; [discriminate | intros H; exfalso; auto].
    + rewrite IH. split.
      * intros H [H1|H1]; [subst; rewrite key_eqb_refl in E; discriminate | auto].
      * tauto.
Qed.

Lemma In_keys k (v : V) (d : pydict K V) : In (k, v) d -> In k (dict_keys d).
Proof. intros H. change k with (fst (k, v)). now apply in_map. Qed.

Lemma In_values k (v : V) (d : pydict K V) : In (k, v) d -> In v (dict_values d).
Proof. intros H. change v with (snd (k, v)). now apply in_map. Qed.

Lemma values_In (v : V) (d : pydict K V) :
  In v (dict_values d) -> exists k, In (k, v) d.
Proof.
  unfold dict_values. rewrite in_map_iff. intros [[k v'] [E H]].
  simpl in E; subst. eauto.
Qed.

Lemma In_dict_get k (v : V) d :
  NoDup (dict_keys d) -> In (k, v) d -> dict_get eqb k d = Some v.
Proof.
  induction d as [|[k' v'] r IH]; simpl; [tauto|].
  intros ND [H|H].
  - injection H as -> ->. now rewrite key_eqb_refl.
  - inversion ND as [|? ? Hn ND']; subst.
    destruct (eqb k k') eqn:E.
    + apply eqb_eq in E; subst. exfalso. apply Hn. eapply In_keys; eauto.
    + auto.
Qed.

Lemma dict_set_keys k (v : V) d :
  dict_keys (dict_set eqb k v d)
  = if dict_in eqb k d then dict_keys d else dict_keys d ++ [k].
Proof.
  unfold dict_in.
  induction d as [|[k' v'] r IH]; simpl; [reflexivity|].
  destruct (eqb k k') eqn:E; simpl; [reflexivity|].
  rewrite IH. destruct (dict_get eqb k r); reflexivity.
Qed.

Lemma dict_set_NoDup k (v : V) d :
  NoDup (dict_keys d) -> NoDup (dict_keys (dict_set eqb k v d)).
Proof.
  intros ND. rewrite dict_set_keys.
  destruct (dict_in eqb k d) eqn:E; [assumption|].
  apply dict_in_false, dict_get_None in E.
  apply NoDup_app; [assumption | repeat constructor; simpl; tauto |].
  intros x Hx [<-|[]]. contradiction.
Qed.

(** With distinct keys, assigning to [k] keeps exactly the items of the
    other keys. *)
Lemma dict_set_In k (v : V) d k' v' :
  NoDup (dict_keys d) ->
  In (k', v') (dict_set eqb k v d) <->
  (k' = k /\ v' = v) \/ (k' <> k /\ In (k', v') d).
Proof.
  intros ND. split.
  - intros H. pose proof (dict_set_NoDup k v d ND) as ND'.
    apply (In_dict_get _ _ _ ND') in H.
    destruct (eqb k' k) eqn:E.
    + apply eqb_eq in E; subst k'. rewrite dict_get_set_same in H.
      left; split; congruence.
    + assert (N : k' <> k) by (intros ->; rewrite key_eqb_refl in E; discriminate).
      rewrite (dict_get_set_other _ _ _ _ N) in H. right; split; [assumption|].
      now apply dict_get_In.
  - intros [[-> ->]|[N H]]; apply dict_get_In.
    + apply dict_get_set_same.
    + rewrite (dict_get_set_other _ _ _ _ N). now apply In_dict_get.
Qed.

End DictFacts.

(** ** The block manager: what one [register] call does *)

Ltac run_method :=
  unfold result, state_after, logged, bind, get, put, emit, pass, ret, raise,
    getitem_int, getitem_str; simpl.

Lemma blocks_register_name_taken b st :
  blocks.OVERRIDE b = false ->
  dict_in String.eqb (blocks.NAME b) (blocks._blockDict st) = true ->
  result (blocks.register b st) = Raise (InitRegisterError NameRegistered)
  /\ state_after (blocks.register b st) = st.
Proof.
  intros Ho Hn. unfold blocks.register. run_method.
  destruct (has_space (blocks.NAME b)); rewrite Ho; simpl; rewrite Hn; simpl;
    auto.
Qed.

Lemma blocks_register_id_taken b st :
  blocks.OVERRIDE b = false ->
  dict_in String.eqb (blocks.NAME b) (blocks._blockDict st) = false ->
  dict_in Z.eqb (blocks.ID b) (blocks._blockIds st) = true ->
  result (blocks.register b st) = Raise (InitRegisterError IdRegistered)
  /\ state_after (blocks.register b st) = st.
Proof.
  intros Ho Hn Hi. unfold blocks.register. run_method.
  destruct (has_space (blocks.NAME b)); rewrite Ho; simpl; rewrite Hn; simpl;
    rewrite Hi; simpl; auto.
Qed.

Lemma blocks_register_fresh b st :
  dict_in String.eqb (blocks.NAME b) (blocks._blockDict st) = false ->
  dict_in Z.eqb (blocks.ID b) (blocks._blockIds st) = false ->
  result (blocks.register b st) = Return b
  /\ state_after (blocks.register b st) = blocks_put b st.
Proof.
  intros Hn Hi. unfold blocks.register. run_method.
  destruct (has_space (blocks.NAME b)), (blocks.OVERRIDE b); simpl;
    repeat (progress (rewrite ?Hn, ?Hi; simpl)); auto.
Qed.

Lemma blocks_register_override_id b st :
  blocks.OVERRIDE b = true ->
  dict_in Z.eqb (blocks.ID b) (blocks._blockIds st) = true ->
  result (blocks.register b st) = Return b
  /\ state_after (blocks.register b st) = blocks_put b st.
Proof.
  intros Ho Hi. unfold blocks.register. run_method.
  pose proof Hi as Hg. apply (dict_in_true Z.eqb) in Hg. destruct Hg as [old Hg].
  destruct (has_space (blocks.NAME b)); rewrite Ho; simpl;
    repeat (progress (rewrite ?Hi, ?Hg, ?andb_false_r, ?orb_true_r; simpl));
    auto.
Qed.

Lemma blocks_register_override_name_only b st :
  blocks.OVERRIDE b = true ->
  dict_in Z.eqb (blocks.ID b) (blocks._blockIds st) = false ->
  dict_in String.eqb (blocks.NAME b) (blocks._blockDict st) = true ->
  result (blocks.register b st) = Raise (KeyErrorId (blocks.ID b))
  /\ state_after (blocks.register b st) = st.
Proof.
  intros Ho Hi Hn. unfold blocks.register. run_method.
  pose proof Hi as Hg. apply (dict_in_false Z.eqb) in Hg.
  destruct (has_space (blocks.NAME b)); rewrite Ho; simpl; rewrite Hi, Hn; simpl;
    rewrite Hg; simpl; auto.
Qed.

(** A call either returns the block, stored under its name and its id, or
    raises and leaves the manager as it was. *)
Lemma blocks_register_cases b st :
  (result (blocks.register b st) = Return b
   /\ state_after (blocks.register b st) = blocks_put b st
   /\ (dict_in String.eqb (blocks.NAME b) (blocks._blockDict st) = false
       /\ dict_in Z.eqb (blocks.ID b) (blocks._blockIds st) = false
       \/ blocks.OVERRIDE b = true
          /\ dict_in Z.eqb (blocks.ID b) (blocks._blockIds st) = true))
  \/ (exists e, result (blocks.register b st) = Raise e)
     /\ state_after (blocks.register b st) = st.
Proof.
  destruct (blocks.OVERRIDE b) eqn:Ho;
    destruct (dict_in String.eqb (blocks.NAME b) (blocks._blockDict st)) eqn:Hn;
    destruct (dict_in Z.eqb (blocks.ID b) (blocks._blockIds st)) eqn:Hi.
  - left. destruct (blocks_register_override_id b st Ho Hi); auto.
  - right. destruct (blocks_register_override_name_only b st Ho Hi Hn) as [-> ->]; eauto.
  - left. destruct (blocks_register_override_id b st Ho Hi); auto.
  - left. destruct (blocks_register_fresh b st Hn Hi); auto.
  - right. destruct (blocks_register_name_taken b st Ho Hn) as [-> ->]; eauto.
  - right. destruct (blocks_register_name_taken b st Ho Hn) as [-> ->]; eauto.
  - right. destruct (blocks_register_id_taken b st Ho Hn Hi) as [-> ->]; eauto.
  - left. destruct (blocks_register_fresh b st Hn Hi); auto.
Qed.

Lemma dict_in_set_mono {K V : Type} (eqb : K -> K -> bool)
  (eqb_eq : forall a b, eqb a b = true <-> a = b) k k' (v : V) d :
  dict_in eqb k' d = true -> dict_in eqb k' (dict_set eqb k v d) = true.
Proof.
  intros H. apply (dict_in_true eqb). apply (dict_in_true eqb) in H.
  destruct H as [v' H]. destruct (eqb k' k) eqn:E.
  - apply eqb_eq in E; subst. rewrite (dict_get_set_same eqb eqb_eq). eauto.
  - rewrite (dict_get_set_other eqb eqb_eq); eauto.
    intros ->. rewrite (key_eqb_refl eqb eqb_eq) in E. discriminate.
Qed.

Lemma dict_in_set_same {K V : Type} (eqb : K -> K -> bool)
  (eqb_eq : forall a b, eqb a b = true <-> a = b) k (v : V) d :
  dict_in eqb k (dict_set eqb k v d) = true.
Proof.
  apply (dict_in_true eqb). rewrite (dict_get_set_same eqb eqb_eq). eauto.
Qed.

Lemma blocks_put_wf b st : blocks_wf st -> blocks_wf (blocks_put b st).
Proof.
  intros [N1 N2 D C]. constructor; simpl.
  - now apply (dict_set_NoDup String.eqb String.eqb_eq).
  - now apply (dict_set_NoDup Z.eqb Z.eqb_eq).
  - intros n e H.
    apply (dict_set_In String.eqb String.eqb_eq) in H; [|assumption].
    destruct H as [[-> ->]|[_ H]].
    + split; [reflexivity | apply (dict_in_set_same Z.eqb Z.eqb_eq)].
    + destruct (D n e H) as [E I]. split; [assumption|].
      now apply (dict_in_set_mono Z.eqb Z.eqb_eq).
  - intros i e H.
    apply (dict_set_In Z.eqb Z.eqb_eq) in H; [|assumption].
    destruct H as [[-> ->]|[_ H]].
    + split; [reflexivity | apply (dict_in_set_same String.eqb String.eqb_eq)].
    + destruct (C i e H) as [E I]. split; [assumption|].
      now apply (dict_in_set_mono String.eqb String.eqb_eq).
Qed.

Lemma blocks_reachable_wf st : blocks_reachable st -> blocks_wf st.
Proof.
  induction 1 as [|b st R IH].
  - constructor; cbv;
      [constructor | constructor | intros ? ? [] | intros ? ? []].
  - destruct (blocks_register_cases b st) as [(_ & -> & _)|[_ ->]];
      [now apply blocks_put_wf | assumption].
Qed.

Lemma blocks_put_agree b st :
  blocks_agree st ->
  blocks_same_target st b ->
  (dict_in String.eqb (blocks.NAME b) (blocks._blockDict st) = false
   /\ dict_in Z.eqb (blocks.ID b) (blocks._blockIds st) = false
   \/ blocks.OVERRIDE b = true
      /\ dict_in Z.eqb (blocks.ID b) (blocks._blockIds st) = true) ->
  blocks_agree (blocks_put b st).
Proof.
  intros [N1 N2 D C] T A. constructor; simpl.
  - now apply (dict_set_NoDup String.eqb String.eqb_eq).
  - now apply (dict_set_NoDup Z.eqb Z.eqb_eq).
  - intros n e H.
    apply (dict_set_In String.eqb String.eqb_eq) in H; [|assumption].
    destruct H as [[-> ->]|[Nn H]].
    + split; [reflexivity | apply (dict_get_set_same Z.eqb Z.eqb_eq)].
    + destruct (D n e H) as [E G]. split; [assumption|].
      rewrite (dict_get_set_other Z.eqb Z.eqb_eq); [assumption|].
      intros Ei. rewrite Ei in G.
      destruct A as [[_ Hi]|[Ho _]].
      * apply (dict_in_false Z.eqb) in Hi. congruence.
      * apply Nn. rewrite <- E. now apply (T Ho e).
  - intros i e H.
    apply (dict_set_In Z.eqb Z.eqb_eq) in H; [|assumption].
    destruct H as [[-> ->]|[Ni H]].
    + split; [reflexivity | apply (dict_get_set_same String.eqb String.eqb_eq)].
    + destruct (C i e H) as [E G]. split; [assumption|].
      rewrite (dict_get_set_other String.eqb String.eqb_eq); [assumption|].
      intros En. rewrite En in G.
      destruct A as [[Hn _]|[Ho Hi]].
      * apply (dict_in_false String.eqb) in Hn. congruence.
      * apply (dict_in_true Z.eqb) in Hi. destruct Hi as [e0 G0].
        pose proof (T Ho e0 G0) as E0.
        apply (dict_get_In Z.eqb Z.eqb_eq) in G0.
        destruct (C _ _ G0) as [I0 G0'].
        rewrite E0 in G0'. apply Ni. congruence.
Qed.

Lemma blocks_tidy_agree st : blocks_tidy st -> blocks_agree st.
Proof.
  induction 1 as [|b st R IH T].
  - constructor; cbv;
      [constructor | constructor | intros ? ? [] | intros ? ? []].
  - destruct (blocks_register_cases b st) as [(_ & -> & A)|[_ ->]];
      [now apply blocks_put_agree | assumption].
Qed.

Lemma blocks_tidy_reachable st : blocks_tidy st -> blocks_reachable st.
Proof. induction 1; now constructor. Qed.

(** *** Lookups *)

Lemma blocks_scan_In items q e :
  blocks.scan items q = Some e -> exists n, In (n, e) items.
Proof.
  induction items as [|[n v] r IH]; simpl; [discriminate|].
  destruct (String.eqb (lower n) (lower q)).
  - intros [= ->]. eauto.
  - intros H. destruct (IH H) as [n' H']. eauto.
Qed.

Lemma blocks_getBlock_In q ic st e :
  result (blocks.getBlock q ic st) = Return e ->
  exists n, In (n, e) (blocks._blockDict st).
Proof.
  unfold blocks.getBlock. run_method. destruct ic.
  - destruct (blocks.scan (blocks._blockDict st) q) eqn:E; simpl; [|discriminate].
    intros [= ->]. eapply blocks_scan_In; eauto.
  - destruct (dict_get String.eqb q (blocks._blockDict st)) eqn:E; simpl;
      [|discriminate].
    intros [= ->]. exists q. now apply (dict_get_In String.eqb String.eqb_eq).
Qed.

Lemma blocks_getBlockById_get i st e :
  result (blocks.getBlockById i st) = Return e <->
  dict_get Z.eqb i (blocks._blockIds st) = Some e.
Proof.
  unfold blocks.getBlockById, dict_in. run_method.
  destruct (dict_get Z.eqb i (blocks._blockIds st)); simpl;
    split; congruence.
Qed.

Lemma blocks_getBlockById_missing i st :
  result (blocks.getBlockById i st) = Raise (BlockError i) <->
  dict_get Z.eqb i (blocks._blockIds st) = None.
Proof.
  unfold blocks.getBlockById, dict_in. run_method.
  destruct (dict_get Z.eqb i (blocks._blockIds st)); simpl;
    split; congruence.
Qed.

Lemma blocks_getBlock_exact n st e :
  result (blocks.getBlock n false st) = Return e <->
  dict_get String.eqb n (blocks._blockDict st) = Some e.
Proof.
  unfold blocks.getBlock. run_method.
  destruct (dict_get String.eqb n (blocks._blockDict st)); simpl;
    split; congruence.
Qed.

(** ** The directional packet manager: what one [register] call does *)

Lemma py_in_int_strs z l : py_in (PyInt z) (map PyStr l) = false.
Proof. induction l; simpl; auto. Qed.

Lemma py_in_str_ints s l : py_in (PyStr s) (map PyInt l) = false.
Proof. induction l; simpl; auto. Qed.

(** With [OVERRIDE] set the first test of [register] compares an id with
    names and a name with ids, so the warning branch is always taken. *)
Lemma packets_override_test p st :
  negb (py_in (PyInt (packet.ID p))
          (map PyStr (dict_keys (packet._packetDict st))))
  && negb (py_in (PyStr (packet.NAME p))
             (map PyInt (packet.getAllPacketIds st))) = true.
Proof. now rewrite py_in_int_strs, py_in_str_ints. Qed.

Ltac run_register :=
  unfold packet.register, packet.loopPackets_setitem, packet.getPacket;
  run_method.

Lemma packets_register_name_taken p st :
  packet.OVERRIDE p = false ->
  dict_in String.eqb (packet.NAME p) (packet._packetDict st) = true ->
  result (packet.register p st) = Raise (InitRegisterError NameRegistered)
  /\ state_after (packet.register p st) = st.
Proof.
  intros Ho Hn. run_register.
  destruct (has_space (packet.NAME p)); rewrite Ho; simpl; rewrite Hn; simpl;
    auto.
Qed.

Lemma packets_register_id_taken p st :
  packet.OVERRIDE p = false ->
  dict_in String.eqb (packet.NAME p) (packet._packetDict st) = false ->
  existsb (Z.eqb (packet.ID p)) (packet.getAllPacketIds st) = true ->
  result (packet.register p st) = Raise (InitRegisterError IdRegistered)
  /\ state_after (packet.register p st) = st.
Proof.
  intros Ho Hn Hi. run_register.
  destruct (has_space (packet.NAME p)); rewrite Ho; simpl; rewrite Hn; simpl;
    rewrite Hi; simpl; auto.
Qed.

Lemma packets_register_accepts p st :
  packets_accepted p st ->
  (playerloop p = true -> packet.loopPackets st <> None) ->
  result (packet.register p st) = Return p
  /\ state_after (packet.register p st) = packets_put p st.
Proof.
  intros A L. unfold packets_put, playerloop in *. run_register.
  pose proof (packets_override_test p st) as T.
  destruct (has_space (packet.NAME p));
    (destruct A as [Ho|[Hn Hi]];
     [ rewrite Ho; simpl; rewrite T; simpl
     | destruct (packet.OVERRIDE p); simpl;
       rewrite ?T, ?Hn, ?Hi; simpl; rewrite ?Hn, ?Hi; simpl ]);
    rewrite ?andb_false_r; simpl;
    (destruct (packet.skeleton p) as [[|]|]; simpl;
     [ destruct (packet.loopPackets st) as [cache|]; simpl;
       [auto | exfalso; now apply L]
     | auto | auto ]).
Qed.

Lemma packets_register_no_attribute p st :
  packets_accepted p st ->
  playerloop p = true -> packet.loopPackets st = None ->
  (exists e, result (packet.register p st) = Raise e)
  /\ state_after (packet.register p st) = st.
Proof.
  intros A F L. unfold playerloop in F. run_register.
  pose proof (packets_override_test p st) as T.
  destruct (packet.skeleton p) as [[|]|]; try discriminate.
  destruct (has_space (packet.NAME p));
    (destruct A as [Ho|[Hn Hi]];
     [ rewrite Ho; simpl; rewrite T; simpl
     | destruct (packet.OVERRIDE p); simpl;
       rewrite ?T, ?Hn, ?Hi; simpl; rewrite ?Hn, ?Hi; simpl ]);
    rewrite ?andb_false_r; simpl; rewrite L; simpl;
    destruct (packet.scan (packet._packetDict st) "loopPackets"); simpl; eauto.
Qed.

(** A call either returns the packet, stored under its name and, when it is
    flagged, in the loop cache, or raises and leaves the manager as it
    was. *)
Lemma packets_register_cases p st :
  (result (packet.register p st) = Return p
   /\ state_after (packet.register p st) = packets_put p st
   /\ packets_accepted p st
   /\ (playerloop p = true -> packet.loopPackets st <> None))
  \/ (exists e, result (packet.register p st) = Raise e)
     /\ state_after (packet.register p st) = st.
Proof.
  assert (accepted_cases : packets_accepted p st ->
    (result (packet.register p st) = Return p
     /\ state_after (packet.register p st) = packets_put p st
     /\ packets_accepted p st
     /\ (playerloop p = true -> packet.loopPackets st <> None))
    \/ (exists e, result (packet.register p st) = Raise e)
       /\ state_after (packet.register p st) = st).
  { intros A.
    assert (L : (playerloop p = true -> packet.loopPackets st <> None)
                \/ playerloop p = true /\ packet.loopPackets st = None).
    { destruct (playerloop p);
        [destruct (packet.loopPackets st); [left; discriminate | right; auto]
        | left; discriminate]. }
    destruct L as [L|[F L]].
    - left. destruct (packets_register_accepts p st A L) as [R S].
      split; [exact R | split; [exact S | split; [exact A | exact L]]].
    - right. now apply packets_register_no_attribute. }
  destruct (packet.OVERRIDE p) eqn:Ho.
  - apply accepted_cases. now left.
  - destruct (dict_in String.eqb (packet.NAME p) (packet._packetDict st)) eqn:Hn.
    { right. destruct (packets_register_name_taken p st Ho Hn) as [-> ->]; eauto. }
    destruct (existsb (Z.eqb (packet.ID p)) (packet.getAllPacketIds st)) eqn:Hi.
    { right. destruct (packets_register_id_taken p st Ho Hn Hi) as [-> ->]; eauto. }
    apply accepted_cases. right; auto.
Qed.

(** *** Invariants of the directional manager *)

Lemma dict_set_In_weak {K V : Type} (eqb : K -> K -> bool) k (v : V) d k' v' :
  In (k', v') (dict_set eqb k v d) ->
  (v' = v /\ (k' = k \/ eqb k k' = true)) \/ In (k', v') d.
Proof.
  induction d as [|[k0 v0] r IH]; simpl.
  - intros [[= <- <-]|[]]. auto.
  - destruct (eqb k k0) eqn:E; simpl.
    + intros [[= <- <-]|H]; auto.
    + intros [H|H]; auto. destruct (IH H) as [?|?]; auto.
Qed.

Lemma packets_ids_In i st :
  existsb (Z.eqb i) (packet.getAllPacketIds st) = true <->
  exists e, In e (dict_values (packet._packetDict st)) /\ packet.ID e = i.
Proof.
  unfold packet.getAllPacketIds. rewrite existsb_exists. split.
  - intros [x [H E]]. apply in_map_iff in H. destruct H as [e [<- H]].
    apply Z.eqb_eq in E. eauto.
  - intros [e [H <-]]. exists (packet.ID e). split.
    + now apply in_map.
    + apply Z.eqb_refl.
Qed.

Lemma packets_put_wf d p st : packets_wf d st -> packets_wf d (packets_put p st).
Proof.
  intros [N D Dir A C]. constructor; simpl.
  - now apply (dict_set_NoDup String.eqb String.eqb_eq).
  - intros n e H.
    apply (dict_set_In String.eqb String.eqb_eq) in H; [|assumption].
    destruct H as [[-> ->]|[_ H]]; [reflexivity | now apply D].
  - assumption.
  - rewrite <- A.
    destruct (packet.skeleton p) as [[|]|]; try tauto.
    destruct (packet.loopPackets st); simpl; split; congruence.
  - intros cache i e L H. unfold playerloop in *.
    destruct (packet.skeleton p) as [[|]|] eqn:S; try (now apply (C cache)).
    destruct (packet.loopPackets st) as [old|]; simpl in L; [|discriminate].
    injection L as <-.
    apply dict_set_In_weak in H. destruct H as [[-> [->|E]]|H].
    + now rewrite S.
    + apply Z.eqb_eq in E. rewrite S. auto.
    + now apply (C old).
Qed.

Lemma packets_init_wf d : packets_wf d (packet._DirectionalPacketManager_init d).
Proof.
  constructor; simpl.
  - constructor.
  - intros ? ? [].
  - reflexivity.
  - destruct d; split; congruence.
  - intros cache i e L H. destruct d; simpl in L; try discriminate.
    injection L as <-. destruct H.
Qed.

Lemma packets_reachable_wf d st : packets_reachable d st -> packets_wf d st.
Proof.
  induction 1 as [|p st R IH].
  - apply packets_init_wf.
  - destruct (packets_register_cases p st) as [(_ & -> & _)|[_ ->]];
      [now apply packets_put_wf | assumption].
Qed.

Lemma packets_tidy_reachable d st : packets_tidy d st -> packets_reachable d st.
Proof. induction 1; now constructor. Qed.

(** An accepted packet that keeps to its own target shares its id with no
    packet of another name. *)
Lemma packets_id_clash d p st n e :
  packets_wf d st -> packets_same_target st p -> packets_accepted p st ->
  In (n, e) (packet._packetDict st) -> packet.ID e = packet.ID p ->
  n = packet.NAME p.
Proof.
  intros W T A H E.
  pose proof (In_values _ _ _ H) as Hv.
  destruct (packet.OVERRIDE p) eqn:Ho.
  - rewrite <- (packets_wf_dict W _ _ H). now apply T.
  - destruct A as [A|[_ A]]; [congruence|].
    assert (X : existsb (Z.eqb (packet.ID p)) (packet.getAllPacketIds st) = true)
      by (apply packets_ids_In; eauto).
    congruence.
Qed.

Lemma packets_put_agree d p st :
  packets_wf d st -> packets_agree st ->
  packets_same_target st p -> packets_accepted p st ->
  (playerloop p = true -> packet.loopPackets st <> None) ->
  packets_agree (packets_put p st).
Proof.
  intros W [I C] T A L. pose proof (packets_wf_names W) as N.
  constructor; simpl.
  - intros n1 e1 n2 e2 H1 H2 E.
    apply (dict_set_In String.eqb String.eqb_eq) in H1; [|assumption].
    apply (dict_set_In String.eqb String.eqb_eq) in H2; [|assumption].
    destruct H1 as [[-> ->]|[N1 H1]], H2 as [[-> ->]|[N2 H2]].
    + reflexivity.
    + symmetry. now apply (packets_id_clash d p st n2 e2).
    + now apply (packets_id_clash d p st n1 e1).
    + now apply (I n1 e1 n2 e2).
  - intros n e H F.
    apply (dict_set_In String.eqb String.eqb_eq) in H; [|assumption].
    destruct H as [[-> ->]|[Nn H]].
    + specialize (L F). unfold playerloop in F.
      destruct (packet.skeleton p) as [[|]|]; try discriminate.
      destruct (packet.loopPackets st) as [cache|]; [|contradiction].
      simpl. eexists; split; [reflexivity|].
      apply (dict_get_set_same Z.eqb Z.eqb_eq).
    + destruct (C n e H F) as [cache [Lc G]]. rewrite Lc.
      destruct (packet.skeleton p) as [[|]|]; simpl; eauto.
      eexists; split; [reflexivity|].
      rewrite (dict_get_set_other Z.eqb Z.eqb_eq); [assumption|].
      intros E. apply Nn. now apply (packets_id_clash d p st n e).
Qed.

Lemma packets_tidy_agree d st : packets_tidy d st -> packets_agree st.
Proof.
  induction 1 as [|p st R IH T].
  - constructor; simpl; intros; contradiction.
  - pose proof (packets_reachable_wf d st (packets_tidy_reachable d st R)) as W.
    destruct (packets_register_cases p st) as [(_ & -> & A & L)|[_ ->]];
      [now apply (packets_put_agree d) | assumption].
Qed.

(** *** Lookups *)

Lemma packets_scan_In items q e :
  packet.scan items q = Some e -> exists n, In (n, e) items.
Proof.
  induction items as [|[n v] r IH]; simpl; [discriminate|].
  destruct (String.eqb (lower n) (lower q)).
  - intros [= ->]. eauto.
  - intros H. destruct (IH H) as [n' H']. eauto.
Qed.

Lemma packets_getPacket_In q ic st e :
  result (packet.getPacket q ic st) = Return e ->
  exists n, In (n, e) (packet._packetDict st).
Proof.
  unfold packet.getPacket. run_method. destruct ic.
  - destruct (packet.scan (packet._packetDict st) q) eqn:E; simpl; [|discriminate].
    intros [= ->]. eapply packets_scan_In; eauto.
  - destruct (dict_get String.eqb q (packet._packetDict st)) eqn:E; simpl;
      [|discriminate].
    intros [= ->]. exists q. now apply (dict_get_In String.eqb String.eqb_eq).
Qed.

Lemma packets_getPacket_exact n st e :
  result (packet.getPacket n false st) = Return e <->
  dict_get String.eqb n (packet._packetDict st) = Some e.
Proof.
  unfold packet.getPacket. run_method.
  destruct (dict_get String.eqb n (packet._packetDict st)); simpl;
    split; congruence.
Qed.

Lemma scan_id_Some values i e :
  packet.scan_id values i = Some e -> In e values /\ packet.ID e = i.
Proof.
  induction values as [|v r IH]; simpl; [discriminate|].
  destruct (Z.eqb (packet.ID v) i) eqn:E.
  - intros [= ->]. apply Z.eqb_eq in E. auto.
  - intros H. destruct (IH H). auto.
Qed.

Lemma scan_id_None values i :
  packet.scan_id values i = None <->
  forall e, In e values -> packet.ID e <> i.
Proof.
  induction values as [|v r IH]; simpl.
  - split; [intros _ e [] | reflexivity].
  - destruct (Z.eqb (packet.ID v) i) eqn:E.
    + apply Z.eqb_eq in E. split; [discriminate|].
      intros H. exfalso. apply (H v); auto.
    + apply Z.eqb_neq in E. rewrite IH. split.
      * intros H e [<-|He]; auto.
      * intros H e He. apply H. auto.
Qed.

Lemma packets_getPacketById_scan i st e :
  result (packet.getPacketById i st) = Return e <->
  packet.scan_id (dict_values (packet._packetDict st)) i = Some e.
Proof.
  unfold packet.getPacketById. run_method.
  destruct (packet.scan_id (dict_values (packet._packetDict st)) i); simpl;
    split; congruence.
Qed.

(** Where ids are distinct the scan by id finds the very packet. *)
Lemma packets_getPacketById_unique d st n e :
  packets_wf d st -> packets_agree st ->
  In (n, e) (packet._packetDict st) ->
  result (packet.getPacketById (packet.ID e) st) = Return e.
Proof.
  intros W G H. apply packets_getPacketById_scan.
  destruct (packet.scan_id (dict_values (packet._packetDict st)) (packet.ID e))
    as [e'|] eqn:S.
  - apply scan_id_Some in S. destruct S as [H' E].
    apply values_In in H'. destruct H' as [n' H'].
    pose proof (packets_agree_ids G _ _ _ _ H' H E) as ->.
    pose proof (packets_wf_names W) as N.
    apply (In_dict_get String.eqb String.eqb_eq _ _ _ N) in H.
    apply (In_dict_get String.eqb String.eqb_eq _ _ _ N) in H'.
    congruence.
  - exfalso. rewrite scan_id_None in S. apply (S e); [|reflexivity].
    eapply In_values; eauto.
Qed.

(** ** The "Stone" scenario *)

(** No [register] call removes an id from the id index. *)
Lemma blocks_ids_kept b st i :
  dict_in Z.eqb i (blocks._blockIds st) = true ->
  dict_in Z.eqb i (blocks._blockIds (state_after (blocks.register b st))) = true.
Proof.
  intros H. destruct (blocks_register_cases b st) as [(_ & -> & _)|[_ ->]];
    [|assumption].
  simpl. now apply (dict_in_set_mono Z.eqb Z.eqb_eq).
Qed.

(** The scenario as the code runs it: on the registry holding "Stone" (id 1,
    module A), the registration of "Stone" (id 2, module B) with the override flag
    does not succeed: it raises a KeyError while formatting its debug
    message.  Afterwards "stone" still resolves to the entry of module A and
    the lookup of id 1 still returns it instead of failing. *)
Lemma stone_override_counterexample :
  result (blocks.register (stoneB true) stone_registry) = Raise (KeyErrorId 2)
  /\ result (blocks.getBlock "stone" true
               (state_after (blocks.register (stoneB true) stone_registry)))
     = Return stoneA
  /\ result (blocks.getBlockById 1
               (state_after (blocks.register (stoneB true) stone_registry)))
     = Return stoneA.
Proof. repeat split; vm_compute; reflexivity. Qed.

(** C1, amended: after "Stone" (id 1) is registered from module A, the
    registration of "Stone" with id 2 from module B without override fails
    with a registration conflict and leaves the registry as it was.  When a
    re-registration of "Stone" from module B with the override flag returns,
    the lookup of "stone" returns the entry of module B.  Whether or not it
    returns, the lookup of id 1 afterwards does not fail: the id index never
    loses an id. *)
Theorem stone_scenario (b : blocks.AbstractBlock) :
  blocks.NAME b = "Stone" ->
  blocks.MODULE b = moduleB ->
  blocks.OVERRIDE b = true ->
  result (blocks.register stoneA blocks.BlockManager) = Return stoneA
  /\ result (blocks.register (stoneB false) stone_registry)
     = Raise (InitRegisterError NameRegistered)
  /\ state_after (blocks.register (stoneB false) stone_registry)
     = stone_registry
  /\ (result (blocks.register b stone_registry) = Return b ->
      result (blocks.getBlock "stone" true
                (state_after (blocks.register b stone_registry)))
      = Return b)
  /\ exists e,
       result (blocks.getBlockById 1
                 (state_after (blocks.register b stone_registry)))
       = Return e.
Proof.
  intros Hn Hm Ho.
  split; [reflexivity|]. split; [reflexivity|]. split; [reflexivity|]. split.
  - intros R.
    destruct (blocks_register_cases b stone_registry) as [(_ & -> & _)|[[e E] _]];
      [|congruence].
    unfold blocks.getBlock. run_method. rewrite Hn. reflexivity.
  - assert (H : dict_in Z.eqb 1
                  (blocks._blockIds
                     (state_after (blocks.register b stone_registry))) = true)
      by (apply blocks_ids_kept; reflexivity).
    apply (dict_in_true Z.eqb) in H. destruct H as [e H].
    exists e. now apply blocks_getBlockById_get.
Qed.

Lemma stone_scenario_witness :
  result (blocks.register stone_replacement stone_registry)
  = Return stone_replacement
  /\ result (blocks.getBlock "stone" true
               (state_after (blocks.register stone_replacement stone_registry)))
     = Return stone_replacement
  /\ exists e,
       result (blocks.getBlockById 1
                 (state_after (blocks.register stone_replacement stone_registry)))
       = Return e.
Proof.
  destruct (stone_scenario stone_replacement eq_refl eq_refl eq_refl)
    as (_ & _ & _ & H & E).
  split; [reflexivity|]. split; [apply H; reflexivity | exact E].
Defined.

(** ** Agreement of the name view and the id view *)

(** An override that takes the id of a block of another name returns, and
    from then on the block found under "Stone" is not the block found under
    its own id; the same for packets, where the scan by id stops at the
    older packet. *)
Lemma views_disagree_counterexample :
  result (blocks.register dirt_override stone_registry) = Return dirt_override
  /\ result (blocks.getBlock "Stone" true dirt_registry) = Return stoneA
  /\ result (blocks.getBlockById (blocks.ID stoneA) dirt_registry)
     = Return dirt_override
  /\ result (packet.register movement_rival movement_registry)
     = Return movement_rival
  /\ result (packet.getPacket "FastMovement" true rival_registry)
     = Return movement_rival
  /\ result (packet.getPacketById (packet.ID movement_rival) rival_registry)
     = Return movement.
Proof. repeat split; vm_compute; reflexivity. Qed.

Lemma blocks_register_stores b st :
  result (blocks.register b st) = Return b ->
  result (blocks.getBlock (blocks.NAME b) false
            (state_after (blocks.register b st))) = Return b
  /\ result (blocks.getBlockById (blocks.ID b)
               (state_after (blocks.register b st))) = Return b.
Proof.
  intros R.
  destruct (blocks_register_cases b st) as [(_ & -> & _)|[[e E] _]];
    [|congruence].
  split.
  - apply blocks_getBlock_exact. apply (dict_get_set_same String.eqb String.eqb_eq).
  - apply blocks_getBlockById_get. apply (dict_get_set_same Z.eqb Z.eqb_eq).
Qed.

(** C2, amended: the invariant is preserved by every sequence of register
    calls in which no overriding entry takes the numeric id of an existing
    entry with another name.  In every state such a sequence reaches, for
    every entry a lookup by name returns, the lookup by that entry's id
    returns the identical entry; for every entry a lookup by id returns, the
    lookup by that entry's exact name returns the identical entry; and a
    registration that returns has put its entry into both views. *)
Theorem views_agree_on_tidy_histories :
  (forall st, blocks_tidy st ->
     (forall q ic e,
        result (blocks.getBlock q ic st) = Return e ->
        result (blocks.getBlockById (blocks.ID e) st) = Return e)
     /\ (forall i e,
           result (blocks.getBlockById i st) = Return e ->
           result (blocks.getBlock (blocks.NAME e) false st) = Return e)
     /\ (forall b,
           result (blocks.register b st) = Return b ->
           result (blocks.getBlock (blocks.NAME b) false
                     (state_after (blocks.register b st))) = Return b
           /\ result (blocks.getBlockById (blocks.ID b)
                        (state_after (blocks.register b st))) = Return b))
  /\ (forall d st, packets_tidy d st ->
        (forall q ic e,
           result (packet.getPacket q ic st) = Return e ->
           result (packet.getPacketById (packet.ID e) st) = Return e)
        /\ (forall i e,
              result (packet.getPacketById i st) = Return e ->
              result (packet.getPacket (packet.NAME e) false st) = Return e)
        /\ (forall p,
              packets_same_target st p ->
              result (packet.register p st) = Return p ->
              result (packet.getPacket (packet.NAME p) false
                        (state_after (packet.register p st))) = Return p
              /\ result (packet.getPacketById (packet.ID p)
                           (state_after (packet.register p st))) = Return p)).
Proof.
  split.
  - intros st T. pose proof (blocks_tidy_agree st T) as G.
    split; [|split].
    + intros q ic e H. apply blocks_getBlock_In in H. destruct H as [n H].
      apply blocks_getBlockById_get. now apply (blocks_agree_dict G n e).
    + intros i e H. apply blocks_getBlockById_get in H.
      apply (dict_get_In Z.eqb Z.eqb_eq) in H.
      apply blocks_getBlock_exact. now apply (blocks_agree_cache G i e).
    + intros b R. now apply blocks_register_stores.
  - intros d st T. pose proof (packets_tidy_agree d st T) as G.
    pose proof (packets_reachable_wf d st (packets_tidy_reachable d st T)) as W.
    split; [|split].
    + intros q ic e H. apply packets_getPacket_In in H. destruct H as [n H].
      now apply (packets_getPacketById_unique d st n e).
    + intros i e H. apply packets_getPacketById_scan, scan_id_Some in H.
      destruct H as [H _]. apply values_In in H. destruct H as [n H].
      apply packets_getPacket_exact.
      rewrite (packets_wf_dict W n e H).
      now apply (In_dict_get String.eqb String.eqb_eq _ _ _ (packets_wf_names W)).
    + intros p Tp R.
      assert (T' : packets_tidy d (state_after (packet.register p st)))
        by (now constructor).
      pose proof (packets_tidy_agree d _ T') as G'.
      pose proof (packets_reachable_wf d _ (packets_tidy_reachable d _ T')) as W'.
      destruct (packets_register_cases p st) as [(_ & E & _)|[[e E] _]];
        [|congruence].
      assert (H : dict_get String.eqb (packet.NAME p)
                    (packet._packetDict (state_after (packet.register p st)))
                  = Some p).
      { rewrite E. simpl. apply (dict_get_set_same String.eqb String.eqb_eq). }
      split.
      * now apply packets_getPacket_exact.
      * apply (packets_getPacketById_unique d _ (packet.NAME p) p W' G').
        now apply (dict_get_In String.eqb String.eqb_eq).
Qed.

Lemma stone_registry_tidy : blocks_tidy stone_registry.
Proof.
  apply (@blocks_tidy_register stoneA blocks.BlockManager).
  - constructor.
  - intros H. discriminate H.
Defined.

Lemma movement_registry_tidy : packets_tidy packet.REQUEST movement_registry.
Proof.
  apply (@packets_tidy_register packet.REQUEST movement
           (packet._DirectionalPacketManager_init packet.REQUEST)).
  - constructor.
  - intros H. discriminate H.
Defined.

Lemma views_agree_witness :
  blocks_tidy (state_after (blocks.register stone_replacement stone_registry))
  /\ result (blocks.getBlockById (blocks.ID stone_replacement)
               (state_after (blocks.register stone_replacement stone_registry)))
     = Return stone_replacement
  /\ packets_tidy packet.REQUEST
       (state_after (packet.register movement_replacement movement_registry))
  /\ result (packet.getPacketById (packet.ID movement_replacement)
               (state_after
                  (packet.register movement_replacement movement_registry)))
     = Return movement_replacement.
Proof.
  assert (Tb : blocks_tidy
                 (state_after (blocks.register stone_replacement stone_registry))).
  { apply blocks_tidy_register; [exact stone_registry_tidy|].
    intros _ e H. vm_compute in H. injection H as <-. reflexivity. }
  assert (Tp : packets_tidy packet.REQUEST
                 (state_after
                    (packet.register movement_replacement movement_registry))).
  { apply packets_tidy_register; [exact movement_registry_tidy|].
    intros _ e H _. vm_compute in H. destruct H as [<-|[]]. reflexivity. }
  destruct views_agree_on_tidy_histories as [B P].
  split; [exact Tb|]. split.
  - apply (proj1 (B _ Tb) "stone" true stone_replacement). reflexivity.
  - split; [exact Tp|].
    apply (proj1 (P _ _ Tp) "playermovement" true movement_replacement).
    reflexivity.
Defined.

(** ** Duplicates without the override flag *)



Lemma stone_registry_reachable : blocks_reachable stone_registry.
Proof. exact (blocks_tidy_reachable _ stone_registry_tidy). Defined.

Lemma movement_registry_reachable :
  packets_reachable packet.REQUEST movement_registry.
Proof. exact (packets_tidy_reachable _ _ movement_registry_tidy). Defined.


(** ** The warning for an override without a target *)

(** The block manager warns exactly when the overriding block collides with
    nothing. *)
Lemma blocks_override_warning b st :
  blocks.OVERRIDE b = true ->
  (In (override_warning_of_block b) (logged (blocks.register b st)) <->
   dict_in Z.eqb (blocks.ID b) (blocks._blockIds st) = false
   /\ dict_in String.eqb (blocks.NAME b) (blocks._blockDict st) = false).
Proof.
  intros Ho. unfold override_warning_of_block, blocks.register.
  run_method. rewrite Ho.
  destruct (dict_in Z.eqb (blocks.ID b) (blocks._blockIds st)) eqn:Hi;
    destruct (dict_in String.eqb (blocks.NAME b) (blocks._blockDict st)) eqn:Hn;
    pose proof Hi as Hg;
    [ apply (dict_in_true Z.eqb) in Hg; destruct Hg as [old Hg]
    | apply (dict_in_true Z.eqb) in Hg; destruct Hg as [old Hg]
    | apply (dict_in_false Z.eqb) in Hg
    | apply (dict_in_false Z.eqb) in Hg ];
    destruct (has_space (blocks.NAME b)); simpl;
    repeat (progress (rewrite ?Hi, ?Hn, ?Hg, ?andb_false_r, ?orb_true_r; simpl));
    (split; intros H;
     [ first [ split; reflexivity
             | exfalso;
               repeat (destruct H as [H|H]; [discriminate H|]);
               first [exact H | discriminate H] ]
     | first [ destruct H as [H1 H2]; discriminate | tauto ] ]).
Qed.

(** The packet manager warns at every override, collision or not. *)
Lemma packets_override_warning p st :
  packet.OVERRIDE p = true ->
  In (override_warning_of_packet p) (logged (packet.register p st)).
Proof.
  intros Ho. unfold override_warning_of_packet. run_register.
  pose proof (packets_override_test p st) as T.
  destruct (has_space (packet.NAME p)); rewrite Ho; simpl; rewrite T; simpl;
    rewrite ?andb_false_r; simpl;
    destruct (packet.skeleton p) as [[|]|]; simpl;
    try destruct (packet.loopPackets st); simpl;
    try destruct (packet.scan (packet._packetDict st) "loopPackets"); simpl;
    tauto.
Qed.

(** C4, at the inputs where the code departs from it.  Overriding
    "PlayerMovement" (id 8) by a packet of the same name and id collides on
    both keys, yet the warning is logged; overriding "Stone" (id 1) by a
    "Stone" with the fresh id 2 collides on the name, yet the registration
    does not succeed. *)
Theorem override_warning_misfires :
  dict_in String.eqb (packet.NAME movement_replacement)
    (packet._packetDict movement_registry) = true
  /\ existsb (Z.eqb (packet.ID movement_replacement))
       (packet.getAllPacketIds movement_registry) = true
  /\ In (override_warning_of_packet movement_replacement)
       (logged (packet.register movement_replacement movement_registry))
  /\ dict_in String.eqb (blocks.NAME (stoneB true))
       (blocks._blockDict stone_registry) = true
  /\ result (blocks.register (stoneB true) stone_registry)
     = Raise (KeyErrorId 2).
Proof.
  split; [reflexivity|]. split; [reflexivity|].
  split; [now apply packets_override_warning|].
  split; reflexivity.
Qed.

(** ** The loop cache of the request manager *)

(** After the override that takes opcode 8 under another name, the flagged
    and registered "FastMovement" sits in the cache at 8 while the registry's
    lookup of 8 returns "PlayerMovement".  After the override that moves
    "PlayerMovement" to opcode 9, the cache still holds the replaced packet
    at 8, which the registry no longer knows. *)
Lemma loop_cache_counterexample :
  packets_registered rival_registry movement_rival
  /\ playerloop movement_rival = true
  /\ packet.loopPackets rival_registry = Some [(8, movement_rival)]
  /\ result (packet.getPacketById 8 rival_registry) = Return movement
  /\ packet.loopPackets moved_registry = Some [(8, movement)]
  /\ result (packet.getPacketById 8 moved_registry) = Raise (PacketError 8).
Proof.
  split; [right; left; reflexivity|].
  repeat split; vm_compute; reflexivity.
Qed.

(** C5, amended: in every state the request manager reaches by register
    calls in which no overriding packet takes the opcode of an existing
    packet with another name, for every registered packet flagged for the
    player loop the cache entry at its opcode is the identical object that
    the registry's lookup by id returns.  After any register calls at all,
    every cache entry is a packet flagged for the player loop, stored at its
    own opcode; it may be a packet an override has since replaced. *)
Theorem loop_cache_agrees_on_tidy_histories :
  (forall st, packets_tidy packet.REQUEST st ->
     forall p, packets_registered st p -> playerloop p = true ->
       exists cache,
         packet.loopPackets st = Some cache
         /\ dict_get Z.eqb (packet.ID p) cache = Some p
         /\ result (packet.getPacketById (packet.ID p) st) = Return p)
  /\ (forall st, packets_reachable packet.REQUEST st ->
        exists cache,
          packet.loopPackets st = Some cache
          /\ forall i p, dict_get Z.eqb i cache = Some p ->
               packet.ID p = i /\ playerloop p = true).
Proof.
  split.
  - intros st T p H F.
    pose proof (packets_tidy_agree _ st T) as G.
    pose proof (packets_reachable_wf _ st (packets_tidy_reachable _ st T)) as W.
    apply values_In in H. destruct H as [n H].
    destruct (packets_agree_cache G n p H F) as [cache [L C]].
    exists cache. split; [assumption|]. split; [assumption|].
    now apply (packets_getPacketById_unique packet.REQUEST st n p).
  - intros st R. pose proof (packets_reachable_wf _ st R) as W.
    destruct (packet.loopPackets st) as [cache|] eqn:L.
    + exists cache. split; [reflexivity|].
      intros i p H. apply (dict_get_In Z.eqb Z.eqb_eq) in H.
      eapply (packets_wf_cache W); eauto.
    + exfalso. apply (packets_wf_attribute W) in L. now apply L.
Qed.

Lemma movement_replaced_tidy :
  packets_tidy packet.REQUEST
    (state_after (packet.register movement_replacement movement_registry)).
Proof.
  apply packets_tidy_register; [exact movement_registry_tidy|].
  intros _ e H _. vm_compute in H. destruct H as [<-|[]]. reflexivity.
Defined.

Lemma loop_cache_witness :
  (exists cache,
     packet.loopPackets
       (state_after (packet.register movement_replacement movement_registry))
     = Some cache
     /\ dict_get Z.eqb 8 cache = Some movement_replacement
     /\ result (packet.getPacketById 8
                  (state_after
                     (packet.register movement_replacement movement_registry)))
        = Return movement_replacement)
  /\ exists cache,
       packet.loopPackets moved_registry = Some cache
       /\ forall i p, dict_get Z.eqb i cache = Some p ->
            packet.ID p = i /\ playerloop p = true.
Proof.
  destruct loop_cache_agrees_on_tidy_histories as [T R]. split.
  - apply (T _ movement_replaced_tidy movement_replacement).
    + left. reflexivity.
    + reflexivity.
  - apply R.
    apply (@packets_reach_register packet.REQUEST movement_moved).
    exact movement_registry_reachable.
Defined.

(** ** Lookup by name *)

Lemma blocks_scan_first front n e back q :
  lower n = lower q ->
  (forall n' e', In (n', e') front -> lower n' <> lower q) ->
  blocks.scan (front ++ (n, e) :: back) q = Some e.
Proof.
  intros M. induction front as [|[n0 e0] r IH]; simpl; intros F.
  - rewrite M, String.eqb_refl. reflexivity.
  - destruct (String.eqb (lower n0) (lower q)) eqn:E.
    + apply String.eqb_eq in E. exfalso. apply (F n0 e0); auto.
    + apply IH. intros n' e' H. apply (F n' e'). auto.
Qed.

Lemma blocks_scan_Some items q e :
  blocks.scan items q = Some e ->
  exists n, In (n, e) items /\ lower n = lower q.
Proof.
  induction items as [|[n v] r IH]; simpl; [discriminate|].
  destruct (String.eqb (lower n) (lower q)) eqn:E.
  - intros [= ->]. apply String.eqb_eq in E. eauto.
  - intros H. destruct (IH H) as [n' [H' M]]. eauto.
Qed.

Lemma blocks_scan_None items q :
  blocks.scan items q = None <->
  forall n e, In (n, e) items -> lower n <> lower q.
Proof.
  induction items as [|[n v] r IH]; simpl.
  - split; [intros _ ? ? [] | reflexivity].
  - destruct (String.eqb (lower n) (lower q)) eqn:E.
    + apply String.eqb_eq in E. split; [discriminate|].
      intros H. exfalso. apply (H n v); auto.
    + apply String.eqb_neq in E. rewrite IH. split.
      * intros H n' e' [[= <- <-]|H']; eauto.
      * intros H n' e' H'. apply (H n' e'). auto.
Qed.

Lemma packets_scan_first front n e back q :
  lower n = lower q ->
  (forall n' e', In (n', e') front -> lower n' <> lower q) ->
  packet.scan (front ++ (n, e) :: back) q = Some e.
Proof.
  intros M. induction front as [|[n0 e0] r IH]; simpl; intros F.
  - rewrite M, String.eqb_refl. reflexivity.
  - destruct (String.eqb (lower n0) (lower q)) eqn:E.
    + apply String.eqb_eq in E. exfalso. apply (F n0 e0); auto.
    + apply IH. intros n' e' H. apply (F n' e'). auto.
Qed.

Lemma packets_scan_Some items q e :
  packet.scan items q = Some e ->
  exists n, In (n, e) items /\ lower n = lower q.
Proof.
  induction items as [|[n v] r IH]; simpl; [discriminate|].
  destruct (String.eqb (lower n) (lower q)) eqn:E.
  - intros [= ->]. apply String.eqb_eq in E. eauto.
  - intros H. destruct (IH H) as [n' [H' M]]. eauto.
Qed.

Lemma packets_scan_None items q :
  packet.scan items q = None <->
  forall n e, In (n, e) items -> lower n <> lower q.
Proof.
  induction items as [|[n v] r IH]; simpl.
  - split; [intros _ ? ? [] | reflexivity].
  - destruct (String.eqb (lower n) (lower q)) eqn:E.
    + apply String.eqb_eq in E. split; [discriminate|].
      intros H. exfalso. apply (H n v); auto.
    + apply String.eqb_neq in E. rewrite IH. split.
      * intros H n' e' [[= <- <-]|H']; eauto.
      * intros H n' e' H'. apply (H n' e'). auto.
Qed.

Lemma blocks_getBlock_scan q st :
  result (blocks.getBlock q true st)
  = match blocks.scan (blocks._blockDict st) q with
    | Some e => Return e
    | None => Raise (KeyError q)
    end.
Proof.
  unfold blocks.getBlock. run_method.
  destruct (blocks.scan (blocks._blockDict st) q); reflexivity.
Qed.

Lemma packets_getPacket_scan q st :
  result (packet.getPacket q true st)
  = match packet.scan (packet._packetDict st) q with
    | Some e => Return e
    | None => Raise (KeyError q)
    end.
Proof.
  unfold packet.getPacket. run_method.
  destruct (packet.scan (packet._packetDict st) q); reflexivity.
Qed.

(** Both "Stone" and "STONE" register without conflict; the lookup of
    "STONE" then returns the older "Stone" and not the entry of that very
    name.  The same with two packets. *)
Lemma lookup_by_name_counterexample :
  result (blocks.register stone_caps stone_registry) = Return stone_caps
  /\ In stone_caps (dict_values (blocks._blockDict caps_registry))
  /\ blocks.NAME stone_caps = "STONE"
  /\ result (blocks.getBlock "STONE" true caps_registry) = Return stoneA
  /\ result (packet.register movement_caps movement_registry)
     = Return movement_caps
  /\ In movement_caps (dict_values (packet._packetDict caps_packets))
  /\ packet.NAME movement_caps = "PLAYERMOVEMENT"
  /\ result (packet.getPacket "PLAYERMOVEMENT" true caps_packets)
     = Return movement.
Proof.
  split; [reflexivity|]. split; [right; left; reflexivity|].
  split; [reflexivity|]. split; [reflexivity|]. split; [reflexivity|].
  split; [right; left; reflexivity|]. split; reflexivity.
Qed.

(** C9, amended: the default, case-insensitive lookup by name returns the
    first entry, in the order of the name dictionary, whose name equals the
    query up to letter case, both sides being lowered before the comparison;
    the dictionary keeps the names in the order in which each was first
    registered, an overriding entry taking the place of the name it
    replaces.  Hence the lookup returns a given registered entry whenever
    the query equals that entry's name up to case and no other registered
    entry's name does.  It fails with NotFound (KeyError) exactly when no
    registered entry's name equals the query up to case. *)
Theorem lookup_by_name_first_match :
  (forall st q, blocks_reachable st ->
     (forall front e back,
        blocks._blockDict st = front ++ (blocks.NAME e, e) :: back ->
        lower (blocks.NAME e) = lower q ->
        (forall n' e', In (n', e') front -> lower n' <> lower q) ->
        result (blocks.getBlock q true st) = Return e)
     /\ (forall e,
           In e (dict_values (blocks._blockDict st)) ->
           lower (blocks.NAME e) = lower q ->
           (forall e', In e' (dict_values (blocks._blockDict st)) ->
                       lower (blocks.NAME e') = lower q -> e' = e) ->
           result (blocks.getBlock q true st) = Return e)
     /\ (result (blocks.getBlock q true st) = Raise (KeyError q) <->
         forall e, In e (dict_values (blocks._blockDict st)) ->
                   lower (blocks.NAME e) <> lower q))
  /\ (forall d st q, packets_reachable d st ->
        (forall front e back,
           packet._packetDict st = front ++ (packet.NAME e, e) :: back ->
           lower (packet.NAME e) = lower q ->
           (forall n' e', In (n', e') front -> lower n' <> lower q) ->
           result (packet.getPacket q true st) = Return e)
        /\ (forall e,
              In e (dict_values (packet._packetDict st)) ->
              lower (packet.NAME e) = lower q ->
              (forall e', In e' (dict_values (packet._packetDict st)) ->
                          lower (packet.NAME e') = lower q -> e' = e) ->
              result (packet.getPacket q true st) = Return e)
        /\ (result (packet.getPacket q true st) = Raise (KeyError q) <->
            forall e, In e (dict_values (packet._packetDict st)) ->
                      lower (packet.NAME e) <> lower q))
  /\ (forall st b, exists tail,
        dict_keys (blocks._blockDict (state_after (blocks.register b st)))
        = dict_keys (blocks._blockDict st) ++ tail
        /\ (tail = [] \/ tail = [blocks.NAME b]))
  /\ (forall st p, exists tail,
        dict_keys (packet._packetDict (state_after (packet.register p st)))
        = dict_keys (packet._packetDict st) ++ tail
        /\ (tail = [] \/ tail = [packet.NAME p])).
Proof.
  split; [|split; [|split]].
  - intros st q R. pose proof (blocks_reachable_wf st R) as W.
    rewrite blocks_getBlock_scan. split; [|split].
    + intros front e back E M F. rewrite E.
      now rewrite (blocks_scan_first front _ e back q M F).
    + intros e H M U.
      destruct (blocks.scan (blocks._blockDict st) q) as [e'|] eqn:S.
      * apply blocks_scan_Some in S. destruct S as [n [H' M']].
        rewrite <- (proj1 (blocks_wf_dict W n e' H')) in M'.
        rewrite (U e'); [reflexivity | eapply In_values; eauto | assumption].
      * exfalso. apply values_In in H. destruct H as [n H].
        rewrite blocks_scan_None in S. apply (S n e H).
        now rewrite <- (proj1 (blocks_wf_dict W n e H)).
    + destruct (blocks.scan (blocks._blockDict st) q) as [e'|] eqn:S.
      * split; [discriminate|]. intros H. exfalso.
        apply blocks_scan_Some in S. destruct S as [n [H' M']].
        apply (H e'); [eapply In_values; eauto|].
        now rewrite (proj1 (blocks_wf_dict W n e' H')).
      * split; [|reflexivity]. intros _ e H.
        apply values_In in H. destruct H as [n H].
        rewrite blocks_scan_None in S.
        rewrite (proj1 (blocks_wf_dict W n e H)). now apply (S n e).
  - intros d st q R. pose proof (packets_reachable_wf d st R) as W.
    rewrite packets_getPacket_scan. split; [|split].
    + intros front e back E M F. rewrite E.
      now rewrite (packets_scan_first front _ e back q M F).
    + intros e H M U.
      destruct (packet.scan (packet._packetDict st) q) as [e'|] eqn:S.
      * apply packets_scan_Some in S. destruct S as [n [H' M']].
        rewrite <- (packets_wf_dict W n e' H') in M'.
        rewrite (U e'); [reflexivity | eapply In_values; eauto | assumption].
      * exfalso. apply values_In in H. destruct H as [n H].
        rewrite packets_scan_None in S. apply (S n e H).
        now rewrite <- (packets_wf_dict W n e H).
    + destruct (packet.scan (packet._packetDict st) q) as [e'|] eqn:S.
      * split; [discriminate|]. intros H. exfalso.
        apply packets_scan_Some in S. destruct S as [n [H' M']].
        apply (H e'); [eapply In_values; eauto|].
        now rewrite (packets_wf_dict W n e' H').
      * split; [|reflexivity]. intros _ e H.
        apply values_In in H. destruct H as [n H].
        rewrite packets_scan_None in S.
        rewrite (packets_wf_dict W n e H). now apply (S n e).
  - intros st b.
    destruct (blocks_register_cases b st) as [(_ & -> & _)|[_ ->]].
    + simpl. rewrite dict_set_keys.
      destruct (dict_in String.eqb (blocks.NAME b) (blocks._blockDict st)).
      * exists []. rewrite app_nil_r. auto.
      * exists [blocks.NAME b]. auto.
    + exists []. rewrite app_nil_r. auto.
  - intros st p.
    destruct (packets_register_cases p st) as [(_ & -> & _)|[_ ->]].
    + simpl. rewrite dict_set_keys.
      destruct (dict_in String.eqb (packet.NAME p) (packet._packetDict st)).
      * exists []. rewrite app_nil_r. auto.
      * exists [packet.NAME p]. auto.
    + exists []. rewrite app_nil_r. auto.
Qed.

Lemma caps_registry_reachable : blocks_reachable caps_registry.
Proof.
  apply (@blocks_reach_register stone_caps stone_registry).
  exact stone_registry_reachable.
Defined.

Lemma caps_packets_reachable : packets_reachable packet.REQUEST caps_packets.
Proof.
  apply (@packets_reach_register packet.REQUEST movement_caps movement_registry).
  exact movement_registry_reachable.
Defined.

Lemma lookup_by_name_witness :
  result (blocks.getBlock "sToNe" true caps_registry) = Return stoneA
  /\ result (blocks.getBlock "stone" true stone_registry) = Return stoneA
  /\ (forall e, In e (dict_values (blocks._blockDict stone_registry)) ->
                lower (blocks.NAME e) <> lower "Dirt")
  /\ result (packet.getPacket "playerMovement" true caps_packets)
     = Return movement
  /\ dict_keys
       (blocks._blockDict (blocks_after [stoneA; stone_caps; stone_replacement]))
     = ["Stone"; "STONE"]
  /\ result
       (blocks.getBlock "STONE" true
          (blocks_after [stoneA; stone_caps; stone_replacement]))
     = Return stone_replacement.
Proof.
  destruct lookup_by_name_first_match as (B & P & _).
  split; [|split; [|split; [|split; [|split]]]].
  - apply (proj1 (B caps_registry "sToNe" caps_registry_reachable)
             [] stoneA [("STONE", stone_caps)]).
    + reflexivity.
    + reflexivity.
    + intros n' e' [].
  - apply (proj1 (proj2 (B stone_registry "stone" stone_registry_reachable))
             stoneA).
    + left. reflexivity.
    + reflexivity.
    + intros e' [<-|[]] _. reflexivity.
  - apply (proj2 (proj2 (B stone_registry "Dirt" stone_registry_reachable))).
    reflexivity.
  - apply (proj1 (P packet.REQUEST caps_packets "playerMovement"
                    caps_packets_reachable)
             [] movement [("PLAYERMOVEMENT", movement_caps)]).
    + reflexivity.
    + reflexivity.
    + intros n' e' [].
  - reflexivity.
  - apply (proj1 (B (blocks_after [stoneA; stone_caps; stone_replacement])
                    "STONE"
                    (@blocks_reach_register stone_replacement caps_registry
                       caps_registry_reachable))
             [] stone_replacement [("STONE", stone_caps)]).
    + reflexivity.
    + reflexivity.
    + intros n' e' [].
Defined.

(** ** Membership is exact-case *)

Lemma blocks_contains_keys st q :
  blocks.__contains__ st q = true <-> In q (dict_keys (blocks._blockDict st)).
Proof.
  unfold blocks.__contains__.
  destruct (dict_in String.eqb q (blocks._blockDict st)) eqn:E.
  - split; [intros _ | reflexivity].
    apply (dict_in_true String.eqb) in E. destruct E as [v E].
    apply (dict_get_In String.eqb String.eqb_eq) in E.
    eapply In_keys; eauto.
  - split; [discriminate|]. intros H. exfalso.
    apply (dict_in_false String.eqb) in E.
    now apply (dict_get_None String.eqb String.eqb_eq) in E.
Qed.

Lemma packets_contains_keys st q :
  packet.__contains__ st q = true <-> In q (dict_keys (packet._packetDict st)).
Proof.
  unfold packet.__contains__.
  destruct (dict_in String.eqb q (packet._packetDict st)) eqn:E.
  - split; [intros _ | reflexivity].
    apply (dict_in_true String.eqb) in E. destruct E as [v E].
    apply (dict_get_In String.eqb String.eqb_eq) in E.
    eapply In_keys; eauto.
  - split; [discriminate|]. intros H. exfalso.
    apply (dict_in_false String.eqb) in E.
    now apply (dict_get_None String.eqb String.eqb_eq) in E.
Qed.

(** C10: the containment test compares names exactly while the default
    lookup ignores case.  With "Stone" registered, the query "stone" differs
    from the name in case only; the lookup by name returns the entry,
    [__contains__] answers True for "Stone" and False for "stone".  The same
    holds with "PlayerMovement" and "playermovement" for the request and the
    response manager and for the packet manager that asks both.  In every
    state a manager reaches, [__contains__] answers True exactly for the
    names of the registered entries as they are written. *)
Theorem contains_is_exact_case :
  (exists st e q,
     blocks_reachable st
     /\ In e (dict_values (blocks._blockDict st))
     /\ q <> blocks.NAME e
     /\ lower q = lower (blocks.NAME e)
     /\ result (blocks.getBlock q true st) = Return e
     /\ blocks.__contains__ st (blocks.NAME e) = true
     /\ blocks.__contains__ st q = false)
  /\ (forall d, exists st e q,
        packets_reachable d st
        /\ In e (dict_values (packet._packetDict st))
        /\ q <> packet.NAME e
        /\ lower q = lower (packet.NAME e)
        /\ result (packet.getPacket q true st) = Return e
        /\ packet.__contains__ st (packet.NAME e) = true
        /\ packet.__contains__ st q = false)
  /\ (exists req res e q,
        packets_reachable packet.REQUEST req
        /\ packets_reachable packet.RESPONSE res
        /\ result (packet.getPacket q true req) = Return e
        /\ q <> packet.NAME e
        /\ lower q = lower (packet.NAME e)
        /\ packet._PacketManager__contains__
             {| packet.RequestManager := req; packet.ResponseManager := res |}
             (packet.NAME e)
           = true
        /\ packet._PacketManager__contains__
             {| packet.RequestManager := req; packet.ResponseManager := res |} q
           = false)
  /\ (forall st q,
        blocks_reachable st ->
        (blocks.__contains__ st q = true <->
         exists e, In e (dict_values (blocks._blockDict st))
                   /\ blocks.NAME e = q))
  /\ (forall d st q,
        packets_reachable d st ->
        (packet.__contains__ st q = true <->
         exists e, In e (dict_values (packet._packetDict st))
                   /\ packet.NAME e = q)).
Proof.
  split; [|split; [|split; [|split]]].
  - exists stone_registry, stoneA, "stone".
    split; [exact stone_registry_reachable|].
    split; [left; reflexivity|].
    split; [discriminate|].
    repeat split; reflexivity.
  - intros d.
    exists (packets_after d [mkResponse "PlayerMovement" 8 "!B" moduleA false]),
      (mkResponse "PlayerMovement" 8 "!B" moduleA false), "playermovement".
    split.
    { apply (@packets_reach_register d
               (mkResponse "PlayerMovement" 8 "!B" moduleA false)).
      constructor. }
    split; [left; reflexivity|].
    split; [discriminate|].
    repeat split; reflexivity.
  - exists movement_registry, (packet._DirectionalPacketManager_init packet.RESPONSE),
      movement, "playermovement".
    split; [exact movement_registry_reachable|].
    split; [constructor|].
    split; [reflexivity|].
    split; [discriminate|].
    repeat split; reflexivity.
  - intros st q R. pose proof (blocks_reachable_wf st R) as W.
    rewrite blocks_contains_keys. split.
    + intros H. apply in_map_iff in H. destruct H as [[n e] [<- H]].
      exists e. split; [eapply In_values; eauto|].
      exact (proj1 (blocks_wf_dict W n e H)).
    + intros (e & H & <-). apply values_In in H. destruct H as [n H].
      rewrite (proj1 (blocks_wf_dict W n e H)). eapply In_keys; eauto.
  - intros d st q R. pose proof (packets_reachable_wf d st R) as W.
    rewrite packets_contains_keys. split.
    + intros H. apply in_map_iff in H. destruct H as [[n e] [<- H]].
      exists e. split; [eapply In_values; eauto|].
      exact (packets_wf_dict W n e H).
    + intros (e & H & <-). apply values_In in H. destruct H as [n H].
      rewrite (packets_wf_dict W n e H). eapply In_keys; eauto.
Qed.

Lemma contains_is_exact_case_witness :
  (blocks.__contains__ caps_registry "STONE" = true <->
   exists e, In e (dict_values (blocks._blockDict caps_registry))
             /\ blocks.NAME e = "STONE")
  /\ (packet.__contains__ caps_packets "playermovement" = true <->
      exists e, In e (dict_values (packet._packetDict caps_packets))
                /\ packet.NAME e = "playermovement").
Proof.
  destruct contains_is_exact_case as (_ & _ & _ & B & P).
  split.
  - exact (B caps_registry "STONE" caps_registry_reachable).
  - exact (P packet.REQUEST caps_packets "playermovement"
             caps_packets_reachable).
Defined.

(** ** Fixed-width strings *)

Lemma str_append_assoc (a b c : string) :
  ((a ++ b) ++ c = a ++ (b ++ c))%string.
Proof. induction a as [|x a IH]; simpl; [reflexivity | now rewrite IH]. Qed.

Lemma str_append_nil_r (a : string) : (a ++ "")%string = a.
Proof. induction a as [|x a IH]; simpl; [reflexivity | now rewrite IH]. Qed.

Lemma str_append_length (a b : string) :
  String.length (a ++ b)%string = (String.length a + String.length b)%nat.
Proof. induction a as [|x a IH]; simpl; [reflexivity | now rewrite IH]. Qed.

Lemma lstrip_split s :
  exists pre, s = (pre ++ packet.lstrip s)%string /\ all_space pre = true.
Proof.
  induction s as [|c r IH]; simpl.
  - exists EmptyString. auto.
  - destruct (packet.isspace c) eqn:E.
    + destruct IH as [pre [H A]]. exists (String c pre). simpl.
      rewrite E, A. split; [congruence | reflexivity].
    + exists EmptyString. auto.
Qed.

Lemma rstrip_split s :
  exists post, s = (packet.rstrip s ++ post)%string /\ all_space post = true.
Proof.
  induction s as [|c r IH]; simpl.
  - exists EmptyString. auto.
  - destruct IH as [post [H A]].
    destruct (packet.rstrip r) as [|c' r'] eqn:R.
    + simpl in H. subst post. destruct (packet.isspace c) eqn:E.
      * exists (String c r). simpl. rewrite E, A. auto.
      * exists r. auto.
    + exists post. simpl. split; [|assumption]. simpl in H. congruence.
Qed.

Lemma lstrip_idem s : packet.lstrip (packet.lstrip s) = packet.lstrip s.
Proof.
  induction s as [|c r IH]; simpl; [reflexivity|].
  destruct (packet.isspace c) eqn:E; [assumption|].
  simpl. now rewrite E.
Qed.

Lemma rstrip_idem s : packet.rstrip (packet.rstrip s) = packet.rstrip s.
Proof.
  induction s as [|c r IH]; simpl; [reflexivity|].
  destruct (packet.rstrip r) as [|c' r'] eqn:R.
  - destruct (packet.isspace c) eqn:E; simpl; [reflexivity|].
    now rewrite E.
  - simpl. simpl in IH. destruct (packet.rstrip r').
    + destruct (packet.isspace c'); [discriminate|]. now rewrite IH.
    + now rewrite IH.
Qed.

Lemma rstrip_tail c r :
  packet.rstrip (String c r) = String c r -> packet.rstrip r = r.
Proof.
  simpl. destruct (packet.rstrip r) as [|c' r'].
  - destruct (packet.isspace c); [discriminate|]. intros [= <-]. reflexivity.
  - intros [= <-]. reflexivity.
Qed.

Lemma rstrip_lstrip s :
  packet.rstrip s = s -> packet.rstrip (packet.lstrip s) = packet.lstrip s.
Proof.
  induction s as [|c r IH]; intros H; [reflexivity|].
  simpl packet.lstrip. destruct (packet.isspace c); [|assumption].
  apply IH. eapply rstrip_tail; eauto.
Qed.

(** The result of [strip] has white space at neither end. *)
Lemma strip_stripped s :
  packet.lstrip (packet.strip s) = packet.strip s
  /\ packet.rstrip (packet.strip s) = packet.strip s.
Proof.
  unfold packet.strip. split.
  - apply lstrip_idem.
  - apply rstrip_lstrip, rstrip_idem.
Qed.

Lemma decode_ignore_filter data :
  packet.decode_ignore (packet.replace_nul data)
  = string_of_list_byte (filter decodable data).
Proof.
  unfold packet.replace_nul, decodable.
  induction data as [|b r IH]; simpl; [reflexivity|].
  destruct (Byte.eqb b x00); simpl; [assumption|].
  destruct (Byte.to_N b <? 128)%N; simpl; [|assumption].
  now rewrite IH.
Qed.

(** The leading space and the NUL between "a" and "b" are no trailing
    padding, and both are gone from the result. *)
Lemma unpackString_counterexample :
  packet.unpackString [x20; "a"%byte; x00; "b"%byte; x20] = "ab".
Proof. reflexivity. Qed.

(** C7, amended: for every byte sequence the unpack operation never fails;
    it drops every NUL byte, wherever it stands, and every byte that does
    not decode as ASCII, and strips white space (not NUL alone) at both
    ends, leading as well as trailing.  Nothing else is removed: the result
    is what remains of the decodable bytes, in order, once a run of white
    space is taken from the front and from the back, and it has white space
    at neither end. *)
Theorem unpackString_strips_both_ends (data : list byte) :
  exists pre post,
    string_of_list_byte (filter decodable data)
    = (pre ++ packet.unpackString data ++ post)%string
    /\ all_space pre = true
    /\ all_space post = true
    /\ packet.lstrip (packet.unpackString data) = packet.unpackString data
    /\ packet.rstrip (packet.unpackString data) = packet.unpackString data.
Proof.
  unfold packet.unpackString. rewrite decode_ignore_filter.
  set (s := string_of_list_byte (filter decodable data)).
  destruct (rstrip_split s) as [post [Hr Ar]].
  destruct (lstrip_split (packet.rstrip s)) as [pre [Hl Al]].
  exists pre, post. split.
  - unfold packet.strip. rewrite <- str_append_assoc, <- Hl. exact Hr.
  - repeat split; try assumption; apply strip_stripped.
Qed.

(** *** Packing and unpacking again *)

Lemma substring_all n s :
  (String.length s <= n)%nat -> substring 0 n s = s.
Proof.
  revert n. induction s as [|c r IH]; intros [|n] H; simpl in *;
    try reflexivity; try lia.
  rewrite IH; [reflexivity | lia].
Qed.

Lemma all_space_spaces k : all_space (packet.spaces k) = true.
Proof. induction k; simpl; auto. Qed.

Lemma spaces_length k : String.length (packet.spaces k) = k.
Proof. induction k; simpl; auto. Qed.

Lemma plain_text_spaces k : plain_text (packet.spaces k) = true.
Proof. induction k; simpl; auto. Qed.

Lemma plain_text_append a b :
  plain_text a = true -> plain_text b = true ->
  plain_text (a ++ b)%string = true.
Proof.
  induction a as [|c r IH]; simpl; [auto|].
  intros H B. apply andb_true_iff in H. destruct H as [H R].
  rewrite H. simpl. auto.
Qed.

Lemma byte_of_ascii_to_N c : Byte.to_N (byte_of_ascii c) = N_of_ascii c.
Proof.
  destruct c as [[] [] [] [] [] [] [] []]; reflexivity.
Qed.

Lemma byte_of_ascii_nul c : Byte.eqb (byte_of_ascii c) x00 = Ascii.eqb c zero.
Proof.
  destruct c as [[] [] [] [] [] [] [] []]; reflexivity.
Qed.

Lemma encode_ascii_plain s :
  plain_text s = true -> packet.encode_ascii s = Some (list_byte_of_string s).
Proof.
  induction s as [|c r IH]; simpl; [reflexivity|].
  intros H. apply andb_true_iff in H. destruct H as [H R].
  apply andb_true_iff in H. destruct H as [_ A].
  rewrite A, (IH R). reflexivity.
Qed.

Lemma list_byte_of_string_length s :
  List.length (list_byte_of_string s) = String.length s.
Proof.
  unfold list_byte_of_string.
  induction s as [|c r IH]; simpl; [reflexivity | now rewrite IH].
Qed.

Lemma filter_decodable_plain s :
  plain_text s = true ->
  filter decodable (list_byte_of_string s) = list_byte_of_string s.
Proof.
  induction s as [|c r IH]; simpl; [reflexivity|].
  intros H. apply andb_true_iff in H. destruct H as [H R].
  specialize (IH R). unfold list_byte_of_string in *. simpl.
  unfold decodable at 1.
  rewrite byte_of_ascii_nul, byte_of_ascii_to_N, H. now rewrite IH.
Qed.

Lemma rstrip_all_space s : all_space s = true -> packet.rstrip s = EmptyString.
Proof.
  induction s as [|c r IH]; simpl; [reflexivity|].
  intros H. apply andb_true_iff in H. destruct H as [E R].
  now rewrite (IH R), E.
Qed.

Lemma rstrip_append_space s post :
  all_space post = true -> packet.rstrip (s ++ post)%string = packet.rstrip s.
Proof.
  intros A. induction s as [|c r IH]; simpl.
  - now apply rstrip_all_space.
  - now rewrite IH.
Qed.

Lemma lstrip_length s : (String.length (packet.lstrip s) <= String.length s)%nat.
Proof.
  induction s as [|c r IH]; simpl; [lia|].
  destruct (packet.isspace c); simpl; lia.
Qed.

(** A string without white space at its ends is cut by neither strip. *)
Lemma strip_fixed s :
  packet.strip s = s -> packet.rstrip s = s /\ packet.lstrip s = s.
Proof.
  unfold packet.strip. intros H.
  destruct (rstrip_split s) as [post [Hs _]].
  assert (L : (String.length s <= String.length (packet.rstrip s))%nat).
  { rewrite <- H at 1. apply lstrip_length. }
  assert (P : post = EmptyString).
  { apply (f_equal String.length) in Hs. rewrite str_append_length in Hs.
    destruct post; [reflexivity | simpl in Hs; lia]. }
  subst post. rewrite str_append_nil_r in Hs. rewrite <- Hs in H. auto.
Qed.

(** The law the two helpers do satisfy. *)
Lemma packageString_unpackString s maxSize :
  Z.of_nat (String.length s) <= maxSize ->
  plain_text s = true ->
  packet.strip s = s ->
  exists bytes,
    packet.packageString s maxSize = Return bytes
    /\ List.length bytes = Z.to_nat maxSize
    /\ packet.unpackString bytes = s.
Proof.
  intros L P Hs.
  set (k := (Z.to_nat maxSize - String.length s)%nat).
  set (t := (s ++ packet.spaces k)%string).
  assert (Pt : plain_text t = true)
    by (apply plain_text_append; [assumption | apply plain_text_spaces]).
  exists (list_byte_of_string t).
  unfold packet.packageString, packet.slice_to, packet.ljust.
  assert (Hpos : (0 <=? maxSize)%Z = true) by (apply Z.leb_le; lia).
  rewrite Hpos, substring_all by lia.
  fold k. fold t. rewrite (encode_ascii_plain t Pt).
  split; [reflexivity|]. split.
  - rewrite list_byte_of_string_length. unfold t.
    rewrite str_append_length, spaces_length. unfold k. lia.
  - unfold packet.unpackString.
    rewrite decode_ignore_filter, (filter_decodable_plain t Pt).
    rewrite string_of_list_byte_of_string.
    unfold packet.strip, t.
    rewrite rstrip_append_space by apply all_space_spaces.
    exact Hs.
Qed.

(** ** Layouts: packing and unpacking *)

Local Open Scope Z_scope.

Lemma Z_of_byte_of_Z z :
  0 <= z < 256 -> struct.Z_of_byte (struct.byte_of_Z z) = z.
Proof.
  intros H. unfold struct.Z_of_byte, struct.byte_of_Z.
  destruct (Byte.of_N (Z.to_N z)) as [b|] eqn:E.
  - apply Byte.to_of_N in E. rewrite E. lia.
  - apply Byte.of_N_None_iff in E. lia.
Qed.

Lemma be_value_snoc data b :
  struct.be_value (data ++ [b])
  = struct.be_value data * 256 + struct.Z_of_byte b.
Proof. unfold struct.be_value. now rewrite fold_left_app. Qed.

Lemma be_bytes_length n u : List.length (struct.be_bytes n u) = n.
Proof.
  revert u. induction n as [|n IH]; intros u; simpl; [reflexivity|].
  rewrite length_app, IH. simpl. lia.
Qed.

Lemma be_value_bytes n u :
  0 <= u < 256 ^ Z.of_nat n -> struct.be_value (struct.be_bytes n u) = u.
Proof.
  revert u. induction n as [|n IH]; intros u H.
  - simpl in *. unfold struct.be_value. simpl. lia.
  - simpl struct.be_bytes. rewrite be_value_snoc.
    rewrite Nat2Z.inj_succ, Z.pow_succ_r in H by lia.
    rewrite IH, Z_of_byte_of_Z.
    + pose proof (Z.div_mod u 256). lia.
    + apply Z.mod_pos_bound. lia.
    + split; [apply Z.div_pos; lia|].
      apply Z.div_lt_upper_bound; lia.
Qed.

Lemma signed_mod bits z :
  0 < bits ->
  - 2 ^ (bits - 1) <= z < 2 ^ (bits - 1) ->
  struct.signed bits (z mod 2 ^ bits) = z.
Proof.
  intros B H. unfold struct.signed.
  assert (P : 2 ^ bits = 2 * 2 ^ (bits - 1)).
  { replace bits with (Z.succ (bits - 1)) at 1 by lia.
    rewrite Z.pow_succ_r by lia. reflexivity. }
  assert (Q : 0 < 2 ^ (bits - 1)) by (apply Z.pow_pos_nonneg; lia).
  destruct (Z.ltb_spec (z mod 2 ^ bits) (2 ^ (bits - 1))) as [L|L].
  - destruct (Z_lt_le_dec z 0) as [N|N].
    + exfalso. rewrite <- (Z.mod_add z 1) in L by lia.
      rewrite Z.mod_small in L by lia. lia.
    + apply Z.mod_small. lia.
  - destruct (Z_lt_le_dec z 0) as [N|N].
    + rewrite <- (Z.mod_add z 1) by lia.
      rewrite Z.mod_small by lia. lia.
    + exfalso. rewrite Z.mod_small in L by lia. lia.
Qed.

Lemma fit_exact count data :
  List.length data = count -> struct.fit count data = data.
Proof.
  intros <-. unfold struct.fit.
  rewrite firstn_all, Nat.sub_diag. simpl. apply app_nil_r.
Qed.

(** One field in range comes back from its bytes. *)
Lemma codec_field_round_trip f v :
  codec.in_range f v ->
  exists a chunk,
    codec.to_struct f v = Return a
    /\ struct.pack_one (codec.code_of f) a = Return chunk
    /\ List.length chunk = struct.size (codec.code_of f)
    /\ codec.of_struct f (struct.unpack_one (codec.code_of f) chunk) = v.
Proof.
  destruct f, v; simpl; try contradiction; intros H.
  - exists (struct.PInt z), (struct.be_bytes 1 z).
    assert (R : (0 <=? z) && (z <=? 255) = true)
      by (apply andb_true_iff; split; apply Z.leb_le; lia).
    cbn [struct.pack_one struct.unpack_one codec.of_struct].
    rewrite R, be_bytes_length, (be_value_bytes 1 z) by (simpl; lia).
    auto.
  - exists (struct.PInt z), (struct.be_bytes 2 (z mod 2 ^ 16)).
    assert (R : (-32768 <=? z) && (z <=? 32767) = true)
      by (apply andb_true_iff; split; apply Z.leb_le; lia).
    cbn [struct.pack_one struct.unpack_one codec.of_struct].
    rewrite R, be_bytes_length, (be_value_bytes 2)
      by (change (256 ^ Z.of_nat 2) with (2 ^ 16); apply Z.mod_pos_bound; lia).
    rewrite signed_mod by (simpl; lia). auto.
  - exists (struct.PInt z), (struct.be_bytes 4 (z mod 2 ^ 32)).
    assert (R : (-2147483648 <=? z) && (z <=? 2147483647) = true)
      by (apply andb_true_iff; split; apply Z.leb_le; lia).
    cbn [struct.pack_one struct.unpack_one codec.of_struct].
    rewrite R, be_bytes_length, (be_value_bytes 4)
      by (change (256 ^ Z.of_nat 4) with (2 ^ 32); apply Z.mod_pos_bound; lia).
    rewrite signed_mod by (simpl; lia). auto.
  - destruct H as (L & P & Hs).
    destruct (packageString_unpackString s (Z.of_nat width)) as (data & E & Ld & U);
      try assumption; [lia|].
    rewrite Nat2Z.id in Ld.
    exists (struct.PBytes data), data. rewrite E.
    rewrite (fit_exact width data Ld). repeat split; [assumption|].
    now rewrite U.
  - exists (struct.PBytes data), data.
    rewrite (fit_exact width data H). repeat split. assumption.
Qed.

Lemma codec_round_trip layout values :
  Forall2 codec.in_range layout values ->
  exists data,
    codec.encode layout values = Return data
    /\ List.length data = codec.size layout
    /\ codec.decode layout data = Return values.
Proof.
  intros H.
  assert (G : exists args data,
    codec.arguments layout values = Return args
    /\ struct.pack (map codec.code_of layout) args = Return data
    /\ List.length data = struct.calcsize (map codec.code_of layout)
    /\ codec.typed layout
         (struct.split_fields (map codec.code_of layout) data) = values).
  { induction H as [|f v layout values Hf _ IH].
    - exists [], []. repeat split.
    - destruct IH as (args & data & A & P & L & T).
      destruct (codec_field_round_trip f v Hf) as (a & chunk & Ea & Ep & Lc & U).
      exists (a :: args), (chunk ++ data). simpl.
      rewrite Ea, A, Ep, P. repeat split.
      + rewrite length_app. lia.
      + rewrite <- Lc, firstn_app, firstn_all, Nat.sub_diag. simpl.
        rewrite app_nil_r, U. f_equal.
        rewrite skipn_app, skipn_all, Nat.sub_diag. simpl. exact T. }
  destruct G as (args & data & A & P & L & T).
  exists data. unfold codec.encode, codec.decode, codec.size, struct.unpack.
  rewrite A, P, L, Nat.eqb_refl, T. auto.
Qed.

(** [packageString] pads " hi" to four bytes, and [unpackString] strips the
    leading space together with the padding: a string of at most the field
    width that does not come back. *)
Lemma string_round_trip_counterexample :
  (String.length " hi" <= 4)%nat
  /\ packet.packageString " hi" 4 = Return [x20; "h"%byte; "i"%byte; x20]
  /\ packet.unpackString [x20; "h"%byte; "i"%byte; x20] = "hi"
  /\ codec.encode [codec.FString 4] [codec.VString " hi"]
     = Return [x20; "h"%byte; "i"%byte; x20]
  /\ codec.decode [codec.FString 4] [x20; "h"%byte; "i"%byte; x20]
     = Return [codec.VString "hi"].
Proof. repeat split; try reflexivity. simpl. lia. Qed.

Lemma SetClickDistance_serialize m distance :
  clickdistance.serialize (clickdistance.SetClickDistancePacket m) distance
  = codec.encode SetClickDistance_layout
      [codec.VInt 18; codec.VInt distance].
Proof. reflexivity. Qed.

Lemma SetTextHotKey_serialize m label action keyCode keyMods :
  texthotkey.serialize (texthotkey.SetTextHotKeyPacket m)
    label action keyCode keyMods
  = codec.encode SetTextHotKey_layout
      [codec.VInt 21; codec.VString label; codec.VString action;
       codec.VInt keyCode; codec.VInt keyMods].
Proof.
  unfold texthotkey.serialize, codec.encode, SetTextHotKey_layout.
  cbn [codec.arguments codec.to_struct Z.of_nat Pos.of_succ_nat Pos.succ].
  destruct (packet.packageString label 64); [|reflexivity].
  destruct (packet.packageString action 64); reflexivity.
Qed.

(** C6, amended: the round-trip law holds for every layout and every tuple
    of values in range, where a byte lies in 0..255, a short and an int in
    their signed ranges, raw bytes have exactly the field width, and a
    string is at most the field width long, is ASCII without NUL and has no
    white space at either end: decoding the encoding returns the original
    tuple.  In particular, for every such string of at most the field width,
    unpacking the packed fixed-width string yields it back, and
    packString("hi", width=4) yields exactly the 4-byte sequence "hi  " whose
    unpacking yields "hi".  The [serialize] of the two packets of the sources
    is the encoding of their layouts. *)
Theorem round_trip_of_plain_stripped_text :
  (forall s maxSize,
     Z.of_nat (String.length s) <= maxSize ->
     plain_text s = true ->
     packet.strip s = s ->
     exists bytes,
       packet.packageString s maxSize = Return bytes
       /\ List.length bytes = Z.to_nat maxSize
       /\ packet.unpackString bytes = s)
  /\ packet.packageString "hi" 4
     = Return ["h"%byte; "i"%byte; " "%byte; " "%byte]
  /\ packet.unpackString ["h"%byte; "i"%byte; " "%byte; " "%byte] = "hi"
  /\ (forall layout values,
        Forall2 codec.in_range layout values ->
        exists data,
          codec.encode layout values = Return data
          /\ List.length data = codec.size layout
          /\ codec.decode layout data = Return values)
  /\ (forall m distance,
        clickdistance.serialize (clickdistance.SetClickDistancePacket m) distance
        = codec.encode SetClickDistance_layout
            [codec.VInt 18; codec.VInt distance])
  /\ (forall m label action keyCode keyMods,
        texthotkey.serialize (texthotkey.SetTextHotKeyPacket m)
          label action keyCode keyMods
        = codec.encode SetTextHotKey_layout
            [codec.VInt 21; codec.VString label; codec.VString action;
             codec.VInt keyCode; codec.VInt keyMods]).
Proof.
  split; [exact packageString_unpackString|].
  split; [reflexivity|]. split; [reflexivity|].
  split; [exact codec_round_trip|].
  split; [exact SetClickDistance_serialize | exact SetTextHotKey_serialize].
Qed.

Lemma round_trip_witness :
  (exists bytes,
     packet.packageString "hi" 4 = Return bytes
     /\ List.length bytes = 4%nat
     /\ packet.unpackString bytes = "hi")
  /\ exists data,
       codec.encode SetTextHotKey_layout
         [codec.VInt 21; codec.VString "home"; codec.VString "/spawn";
          codec.VInt 35; codec.VInt 0]
       = Return data
       /\ List.length data = 134%nat
       /\ codec.decode SetTextHotKey_layout data
          = Return [codec.VInt 21; codec.VString "home"; codec.VString "/spawn";
                    codec.VInt 35; codec.VInt 0].
Proof.
  destruct round_trip_of_plain_stripped_text as (S & _ & _ & C & _).
  split.
  - apply (S "hi" 4); [simpl; lia | reflexivity | reflexivity].
  - apply (C SetTextHotKey_layout).
    repeat constructor; simpl; lia.
Defined.

(** ** Capability gating of the join-time senders *)

(** [sendTextHotkeys] asks [supports] first: without the capability it sends
    nothing and raises nothing. *)
Lemma sendTextHotkeys_gated hotkeys self p s :
  network.player self = Some p ->
  network.supports p texthotkey.extension = false ->
  result (texthotkey.sendTextHotkeys hotkeys self s) = Return tt
  /\ state_after (texthotkey.sendTextHotkeys hotkeys self s) = s.
Proof.
  intros P N. unfold texthotkey.sendTextHotkeys. rewrite P, N. auto.
Qed.

(** [sendClickDistance] never asks: whatever the capabilities of the player,
    where "SetClickDistance" is registered the packet goes out. *)
Lemma sendClickDistance_ungated self p s packet :
  result (packet.getPacket "SetClickDistance" true (network.Response s))
  = Return packet ->
  result (clickdistance.sendClickDistance self p s) = Return tt
  /\ network.outbox (state_after (clickdistance.sendClickDistance self p s))
     = network.outbox s
       ++ [{| network.receiver := p;
              network.sentPacket := packet;
              network.sentArgs :=
                [network.AInt
                   (clickdistance.distance
                      (clickdistance.clickDistance (clickdistance.world self)))] |}].
Proof.
  unfold clickdistance.sendClickDistance, clickdistance.setClickDistance,
    network.Packets_Response, network.sendPacket.
  run_method.
  destruct (packet.getPacket "SetClickDistance" true (network.Response s))
    as [[r st] l].
  simpl. intros ->. simpl. auto.
Qed.


(** * Further properties *)

(** ** When [register] returns *)

(** X1: the block manager accepts a block exactly when, without the override
    flag, its name and its id are both new, or, with the flag, its id is
    registered or its name is new.  Otherwise it raises: the name conflict,
    then the id conflict, or, for an override of a registered name under a
    new id, the KeyError of its debug message; and whenever it raises the
    manager is as before. *)
Theorem blocks_register_outcome b st :
  let name_taken := dict_in String.eqb (blocks.NAME b) (blocks._blockDict st) in
  let id_taken := dict_in Z.eqb (blocks.ID b) (blocks._blockIds st) in
  result (blocks.register b st)
  = (if blocks.OVERRIDE b
     then if id_taken || negb name_taken
          then Return b
          else Raise (KeyErrorId (blocks.ID b))
     else if name_taken then Raise (InitRegisterError NameRegistered)
     else if id_taken then Raise (InitRegisterError IdRegistered)
     else Return b)
  /\ state_after (blocks.register b st)
     = (if (if blocks.OVERRIDE b then id_taken || negb name_taken
            else negb name_taken && negb id_taken)
        then blocks_put b st
        else st).
Proof.
  cbv zeta.
  destruct (blocks.OVERRIDE b) eqn:Ho;
    destruct (dict_in String.eqb (blocks.NAME b) (blocks._blockDict st)) eqn:Hn;
    destruct (dict_in Z.eqb (blocks.ID b) (blocks._blockIds st)) eqn:Hi;
    simpl.
  - apply blocks_register_override_id; assumption.
  - apply blocks_register_override_name_only; assumption.
  - apply blocks_register_override_id; assumption.
  - apply blocks_register_fresh; assumption.
  - apply blocks_register_name_taken; assumption.
  - apply blocks_register_name_taken; assumption.
  - apply blocks_register_id_taken; assumption.
  - apply blocks_register_fresh; assumption.
Qed.

(** X2: a directional manager of direction [d] accepts a packet exactly when
    the override flag is set or its name and its id are both new, and, for a
    packet flagged for the player loop, the manager is the REQUEST one.  So
    in the REQUEST manager an override never fails; and a raising call
    leaves the manager as before. *)
Theorem packets_register_returns_iff d st p :
  packets_reachable d st ->
  (result (packet.register p st) = Return p <->
   (packet.OVERRIDE p = true
    \/ dict_in String.eqb (packet.NAME p) (packet._packetDict st) = false
       /\ existsb (Z.eqb (packet.ID p)) (packet.getAllPacketIds st) = false)
   /\ (playerloop p = true -> d = packet.REQUEST))
  /\ (result (packet.register p st) <> Return p ->
      (exists e, result (packet.register p st) = Raise e)
      /\ state_after (packet.register p st) = st)
  /\ (result (packet.register p st) = Return p ->
      state_after (packet.register p st) = packets_put p st).
Proof.
  intros R. pose proof (packets_reachable_wf d st R) as W.
  destruct (packets_register_cases p st) as [(Hr & Hs & A & L)|[[e He] Hs]].
  - split; [|split].
    + split; [intros _ | intros _; exact Hr].
      split; [exact A|].
      intros F. specialize (L F).
      destruct d; try reflexivity;
        exfalso; apply L; apply (packets_wf_attribute W); discriminate.
    + intros N. contradiction.
    + intros _. exact Hs.
  - split; [|split].
    + split; [intros Hr; congruence|].
      intros [A D]. exfalso.
      assert (L : playerloop p = true -> packet.loopPackets st <> None).
      { intros F N. apply (packets_wf_attribute W) in N. auto. }
      destruct (packets_register_accepts p st A L) as [Hr _]. congruence.
    + intros _. eauto.
    + intros Hr. congruence.
Qed.

Lemma packets_register_returns_witness :
  result (packet.register movement_rival movement_registry)
  = Return movement_rival.
Proof.
  apply (proj1 (packets_register_returns_iff packet.REQUEST movement_registry
                  movement_rival movement_registry_reachable)).
  split; [left; reflexivity | reflexivity].
Defined.

(** ** What a registration leaves alone *)

Lemma dict_set_length_new {K V : Type} (eqb : K -> K -> bool) k (v : V) d :
  List.length (dict_set eqb k v d)
  = if dict_in eqb k d then List.length d else S (List.length d).
Proof.
  unfold dict_in. induction d as [|[k' v'] r IH]; simpl; [reflexivity|].
  destruct (eqb k k'); simpl; [reflexivity|].
  rewrite IH. destruct (dict_get eqb k r); reflexivity.
Qed.

(** X3: a [register] call of the block manager changes the exact-name lookup
    at the block's own name only and the id lookup at the block's own id
    only; no name and no id ever stops being registered; the ids keep their
    order of first registration, a new id going to the end; and the number
    of blocks grows by one exactly when a block of a new name is accepted. *)
Theorem blocks_register_frame b st :
  (forall n, n <> blocks.NAME b ->
     result (blocks.getBlock n false (state_after (blocks.register b st)))
     = result (blocks.getBlock n false st))
  /\ (forall i, i <> blocks.ID b ->
        result (blocks.getBlockById i (state_after (blocks.register b st)))
        = result (blocks.getBlockById i st))
  /\ (forall n, blocks.__contains__ st n = true ->
        blocks.__contains__ (state_after (blocks.register b st)) n = true)
  /\ (forall i, In i (blocks.getAllBlockIds st) ->
        In i (blocks.getAllBlockIds (state_after (blocks.register b st))))
  /\ (exists tail,
        blocks.getAllBlockIds (state_after (blocks.register b st))
        = blocks.getAllBlockIds st ++ tail
        /\ (tail = [] \/ tail = [blocks.ID b]))
  /\ blocks.__len__ (state_after (blocks.register b st))
     = (match result (blocks.register b st) with
        | Return _ =>
            if blocks.__contains__ st (blocks.NAME b)
            then blocks.__len__ st
            else S (blocks.__len__ st)
        | Raise _ => blocks.__len__ st
        end).
Proof.
  destruct (blocks_register_cases b st) as [(Hr & Hs & _)|[[e He] Hs]];
    rewrite Hs; [|rewrite He; repeat split; auto; exists []; rewrite app_nil_r; auto].
  rewrite Hr. split; [|split; [|split; [|split; [|split]]]].
  - intros n N. unfold blocks.getBlock. run_method.
    rewrite (dict_get_set_other String.eqb String.eqb_eq) by exact N.
    destruct (dict_get String.eqb n (blocks._blockDict st)); reflexivity.
  - intros i N. unfold blocks.getBlockById, dict_in. run_method.
    rewrite (dict_get_set_other Z.eqb Z.eqb_eq) by exact N.
    destruct (dict_get Z.eqb i (blocks._blockIds st)); reflexivity.
  - intros n H. unfold blocks.__contains__ in *. simpl.
    now apply (dict_in_set_mono String.eqb String.eqb_eq).
  - intros i H. unfold blocks.getAllBlockIds. simpl.
    rewrite dict_set_keys. destruct (dict_in Z.eqb (blocks.ID b) (blocks._blockIds st)).
    + exact H.
    + apply in_or_app. left. exact H.
  - unfold blocks.getAllBlockIds. simpl. rewrite dict_set_keys.
    destruct (dict_in Z.eqb (blocks.ID b) (blocks._blockIds st)).
    + exists []. rewrite app_nil_r. auto.
    + exists [blocks.ID b]. auto.
  - unfold blocks.__len__, blocks.__contains__. simpl.
    apply dict_set_length_new.
Qed.

(** X4: a [register] call of a directional manager changes the exact-name
    lookup at the packet's own name only; no name ever stops being
    registered; the number of packets grows by one exactly when a packet of
    a new name is accepted; and [getAllPacketIds] has one id per packet. *)
Theorem packets_register_frame p st :
  (forall n, n <> packet.NAME p ->
     result (packet.getPacket n false (state_after (packet.register p st)))
     = result (packet.getPacket n false st))
  /\ (forall n, packet.__contains__ st n = true ->
        packet.__contains__ (state_after (packet.register p st)) n = true)
  /\ packet.__len__ (state_after (packet.register p st))
     = (match result (packet.register p st) with
        | Return _ =>
            if packet.__contains__ st (packet.NAME p)
            then packet.__len__ st
            else S (packet.__len__ st)
        | Raise _ => packet.__len__ st
        end)
  /\ List.length (packet.getAllPacketIds (state_after (packet.register p st)))
     = packet.__len__ (state_after (packet.register p st)).
Proof.
  assert (Ids : forall s, List.length (packet.getAllPacketIds s) = packet.__len__ s).
  { intros s. unfold packet.getAllPacketIds, packet.__len__, dict_values.
    now rewrite !length_map. }
  destruct (packets_register_cases p st) as [(Hr & Hs & _)|[[e He] Hs]];
    rewrite Hs; [|rewrite He; repeat split; auto].
  rewrite Hr. split; [|split; [|split]].
  - intros n N. unfold packet.getPacket. run_method.
    rewrite (dict_get_set_other String.eqb String.eqb_eq) by exact N.
    destruct (dict_get String.eqb n (packet._packetDict st)); reflexivity.
  - intros n H. unfold packet.__contains__ in *. simpl.
    now apply (dict_in_set_mono String.eqb String.eqb_eq).
  - unfold packet.__len__, packet.__contains__. simpl.
    apply dict_set_length_new.
  - apply Ids.
Qed.

Lemma blocks_register_frame_witness :
  result (blocks.getBlockById 1
            (state_after (blocks.register stone_caps stone_registry)))
  = result (blocks.getBlockById 1 stone_registry)
  /\ blocks.__contains__
       (state_after (blocks.register stone_caps stone_registry)) "Stone" = true.
Proof.
  destruct (blocks_register_frame stone_caps stone_registry)
    as (_ & Hi & Hc & _).
  split.
  - apply Hi. discriminate.
  - apply Hc. reflexivity.
Defined.

Lemma packets_register_frame_witness :
  result (packet.getPacket "PlayerMovement" false
            (state_after (packet.register movement_rival movement_registry)))
  = result (packet.getPacket "PlayerMovement" false movement_registry)
  /\ packet.__contains__
       (state_after (packet.register movement_rival movement_registry))
       "PlayerMovement" = true.
Proof.
  destruct (packets_register_frame movement_rival movement_registry)
    as (Hn & Hc & _).
  split.
  - apply Hn. discriminate.
  - apply Hc. reflexivity.
Defined.

(** ** Lookups by id *)

(** X5: in every state the block manager reaches, [getAllBlockIds] lists
    every registered id once; [getBlockById] returns a block exactly for the
    listed ids, the block it returns carries the id asked for, and for any
    other id it raises BlockError. *)
Theorem blocks_ids_listed st :
  blocks_reachable st ->
  NoDup (blocks.getAllBlockIds st)
  /\ (forall i,
        In i (blocks.getAllBlockIds st) <->
        exists b, result (blocks.getBlockById i st) = Return b)
  /\ (forall i b,
        result (blocks.getBlockById i st) = Return b -> blocks.ID b = i)
  /\ (forall i,
        ~ In i (blocks.getAllBlockIds st) <->
        result (blocks.getBlockById i st) = Raise (BlockError i)).
Proof.
  intros R. pose proof (blocks_reachable_wf st R) as W.
  split; [exact (blocks_wf_ids W)|]. split; [|split].
  - intros i. split.
    + intros H. destruct (dict_get Z.eqb i (blocks._blockIds st)) as [b|] eqn:G.
      * exists b. now apply blocks_getBlockById_get.
      * exfalso. now apply (dict_get_None Z.eqb Z.eqb_eq) in G.
    + intros [b H]. apply blocks_getBlockById_get in H.
      apply (dict_get_In Z.eqb Z.eqb_eq) in H. eapply In_keys; eauto.
  - intros i b H. apply blocks_getBlockById_get in H.
    apply (dict_get_In Z.eqb Z.eqb_eq) in H.
    exact (proj1 (blocks_wf_cache W i b H)).
  - intros i. rewrite blocks_getBlockById_missing.
    symmetry. apply (dict_get_None Z.eqb Z.eqb_eq).
Qed.

Lemma blocks_ids_listed_witness :
  NoDup (blocks.getAllBlockIds caps_registry)
  /\ exists b, result (blocks.getBlockById 2 caps_registry) = Return b.
Proof.
  destruct (blocks_ids_listed caps_registry caps_registry_reachable)
    as (N & L & _).
  split; [exact N|]. apply L. right. left. reflexivity.
Defined.

(** X6: [getPacketById] returns the first packet, in the order of the
    name dictionary, that carries the id: a packet it returns is in the
    dictionary and has the id asked for, no packet before it in the
    dictionary has that id, and conversely the first packet of the
    dictionary with the id is the one returned.  This is the order of the
    dictionary and not the order of the registrations: an overriding packet
    stands where the name it replaces stood.  The lookup raises PacketError
    exactly when [getAllPacketIds] does not list the id. *)
Theorem packets_lookup_by_id st i :
  (forall p,
     result (packet.getPacketById i st) = Return p ->
     packet.ID p = i
     /\ exists front back,
          dict_values (packet._packetDict st) = front ++ p :: back
          /\ forall q, In q front -> packet.ID q <> i)
  /\ (forall front p back,
        dict_values (packet._packetDict st) = front ++ p :: back ->
        packet.ID p = i ->
        (forall q, In q front -> packet.ID q <> i) ->
        result (packet.getPacketById i st) = Return p)
  /\ (result (packet.getPacketById i st) = Raise (PacketError i) <->
      ~ In i (packet.getAllPacketIds st)).
Proof.
  assert (first : forall values front p back,
            values = front ++ p :: back -> packet.ID p = i ->
            (forall q, In q front -> packet.ID q <> i) ->
            packet.scan_id values i = Some p).
  { intros values front p back -> E F.
    induction front as [|q r IH]; simpl.
    - rewrite E, Z.eqb_refl. reflexivity.
    - destruct (Z.eqb (packet.ID q) i) eqn:Q.
      + apply Z.eqb_eq in Q. exfalso.
        apply (F q); [left; reflexivity | exact Q].
      + apply IH. intros x Hx. apply F. right. exact Hx. }
  assert (found : forall values p,
            packet.scan_id values i = Some p ->
            exists front back,
              values = front ++ p :: back
              /\ forall q, In q front -> packet.ID q <> i).
  { induction values as [|v r IH]; simpl; [discriminate|].
    intros p. destruct (Z.eqb (packet.ID v) i) eqn:Q.
    - intros [= ->]. exists [], r. split; [reflexivity | intros q []].
    - intros H. destruct (IH p H) as (front & back & -> & F).
      exists (v :: front), back. split; [reflexivity|].
      intros q [<-|Hq]; [now apply Z.eqb_neq | auto]. }
  split; [|split].
  - intros p H. apply packets_getPacketById_scan in H.
    split; [exact (proj2 (scan_id_Some _ _ _ H)) | now apply found].
  - intros front p back E Ei F. apply packets_getPacketById_scan.
    now apply (first _ front p back).
  - unfold packet.getPacketById. run_method.
    destruct (packet.scan_id (dict_values (packet._packetDict st)) i) as [p|] eqn:S;
      simpl.
    + split; [discriminate|]. intros N. exfalso. apply N.
      apply scan_id_Some in S. destruct S as [H <-].
      unfold packet.getAllPacketIds. now apply in_map.
    + split; [intros _ | reflexivity].
      rewrite scan_id_None in S. unfold packet.getAllPacketIds.
      rewrite in_map_iff. intros (q & E & H). now apply (S q).
Qed.

(* the second instance: "Alpha" with id 7, "Beta" with id 8, then an
   override of "Alpha" with id 8; the packet registered last stands first *)
Lemma packets_lookup_by_id_witness :
  result (packet.getPacketById 8 rival_registry) = Return movement
  /\ result
       (packet.getPacketById 8
          (packets_after packet.REQUEST
             [mkRequest "Alpha" 7 moduleA false false;
              mkRequest "Beta" 8 moduleA false false;
              mkRequest "Alpha" 8 moduleB true false]))
     = Return (mkRequest "Alpha" 8 moduleB true false).
Proof.
  split.
  - apply (proj1 (proj2 (packets_lookup_by_id rival_registry 8))
             [] movement [movement_rival]).
    + reflexivity.
    + reflexivity.
    + intros q [].
  - apply (proj1 (proj2 (packets_lookup_by_id _ 8))
             [] (mkRequest "Alpha" 8 moduleB true false)
             [mkRequest "Beta" 8 moduleA false false]).
    + reflexivity.
    + reflexivity.
    + intros q [].
Defined.

(** ** The query of a lookup by name *)

Lemma lower_char_idem c : lower_char (lower_char c) = lower_char c.
Proof. destruct c as [[] [] [] [] [] [] [] []]; reflexivity. Qed.

Lemma lower_idem s : lower (lower s) = lower s.
Proof.
  induction s as [|c r IH]; simpl; [reflexivity|].
  now rewrite lower_char_idem, IH.
Qed.

Lemma blocks_scan_query items q q' :
  lower q = lower q' -> blocks.scan items q = blocks.scan items q'.
Proof.
  intros E. induction items as [|[n e] r IH]; simpl; [reflexivity|].
  now rewrite E, IH.
Qed.

Lemma packets_scan_query items q q' :
  lower q = lower q' -> packet.scan items q = packet.scan items q'.
Proof.
  intros E. induction items as [|[n e] r IH]; simpl; [reflexivity|].
  now rewrite E, IH.
Qed.

(** X7: the default lookup by name depends on the query only up to letter
    case: two queries with the same lower-case form return the same entry or
    both fail, each with the KeyError of its own query; in particular a
    query and its lower-case form always find the same entry.  A name the
    containment test accepts is always found by the default lookup. *)
Theorem lookup_ignores_case_of_query :
  (forall st q q' b,
     lower q = lower q' ->
     (result (blocks.getBlock q true st) = Return b <->
      result (blocks.getBlock q' true st) = Return b)
     /\ (result (blocks.getBlock q true st) = Raise (KeyError q) <->
         result (blocks.getBlock q' true st) = Raise (KeyError q')))
  /\ (forall st q,
        result (blocks.getBlock (lower q) true st)
        = match result (blocks.getBlock q true st) with
          | Return b => Return b
          | Raise _ => Raise (KeyError (lower q))
          end)
  /\ (forall st q,
        blocks.__contains__ st q = true ->
        exists b, result (blocks.getBlock q true st) = Return b)
  /\ (forall st q q' p,
        lower q = lower q' ->
        (result (packet.getPacket q true st) = Return p <->
         result (packet.getPacket q' true st) = Return p)
        /\ (result (packet.getPacket q true st) = Raise (KeyError q) <->
            result (packet.getPacket q' true st) = Raise (KeyError q')))
  /\ (forall st q,
        packet.__contains__ st q = true ->
        exists p, result (packet.getPacket q true st) = Return p).
Proof.
  split; [|split; [|split; [|split]]].
  - intros st q q' b E. rewrite !blocks_getBlock_scan.
    rewrite (blocks_scan_query _ q q' E).
    destruct (blocks.scan (blocks._blockDict st) q'); split; split;
      congruence.
  - intros st q. rewrite !blocks_getBlock_scan.
    rewrite (blocks_scan_query _ (lower q) q (lower_idem q)).
    destruct (blocks.scan (blocks._blockDict st) q); reflexivity.
  - intros st q H. rewrite blocks_getBlock_scan.
    destruct (blocks.scan (blocks._blockDict st) q) as [b|] eqn:S; [eauto|].
    exfalso. rewrite blocks_scan_None in S.
    apply blocks_contains_keys in H. apply in_map_iff in H.
    destruct H as [[n e] [<- H]]. now apply (S n e).
  - intros st q q' p E. rewrite !packets_getPacket_scan.
    rewrite (packets_scan_query _ q q' E).
    destruct (packet.scan (packet._packetDict st) q'); split; split;
      congruence.
  - intros st q H. rewrite packets_getPacket_scan.
    destruct (packet.scan (packet._packetDict st) q) as [b|] eqn:S; [eauto|].
    exfalso. rewrite packets_scan_None in S.
    apply packets_contains_keys in H. apply in_map_iff in H.
    destruct H as [[n e] [<- H]]. now apply (S n e).
Qed.

Lemma lookup_ignores_case_witness :
  result (blocks.getBlock "sTONE" true stone_registry) = Return stoneA
  /\ exists p,
       result (packet.getPacket "PlayerMovement" true movement_registry)
       = Return p.
Proof.
  destruct lookup_ignores_case_of_query as (B & _ & _ & _ & P).
  split.
  - apply (proj1 (B stone_registry "Stone" "sTONE" stoneA eq_refl)).
    reflexivity.
  - apply P. reflexivity.
Defined.

(** ** The argument converters *)

Lemma blocks_getBlockById_result i st :
  result (blocks.getBlockById i st)
  = match dict_get Z.eqb i (blocks._blockIds st) with
    | Some b => Return b
    | None => Raise (BlockError i)
    end.
Proof.
  unfold blocks.getBlockById, dict_in. run_method.
  destruct (dict_get Z.eqb i (blocks._blockIds st)); reflexivity.
Qed.

Lemma blocks_convertArgument_eq int st argument :
  AbstractBlock._convertArgument int st argument
  = let by_name :=
      match blocks.scan (blocks._blockDict st) argument with
      | Some b => Done b
      | None => Failed (ConverterError "Block" argument)
      end in
    match int argument with
    | Some i =>
        match dict_get Z.eqb i (blocks._blockIds st) with
        | Some b => Done b
        | None => by_name
        end
    | None => by_name
    end.
Proof.
  unfold AbstractBlock._convertArgument, call. cbv zeta.
  destruct (int argument) as [i|].
  - rewrite blocks_getBlockById_result.
    destruct (dict_get Z.eqb i (blocks._blockIds st)); [reflexivity|].
    rewrite blocks_getBlock_scan.
    destruct (blocks.scan (blocks._blockDict st) argument); reflexivity.
  - rewrite blocks_getBlock_scan.
    destruct (blocks.scan (blocks._blockDict st) argument); reflexivity.
Qed.

(** X8: whatever [int] does, the block converter fails with ConverterError
    only, and exactly when the argument is neither a registered id (as read
    by [int]) nor the name of a registered block up to letter case.  A
    registered id wins over any name; a block that is returned either
    carries the id read from the argument or has the argument as its name
    up to case. *)
Theorem blocks_convertArgument_spec (int : string -> option Z) st argument :
  blocks_reachable st ->
  (forall e,
     AbstractBlock._convertArgument int st argument = Failed e ->
     e = ConverterError "Block" argument)
  /\ (forall i b,
        int argument = Some i ->
        result (blocks.getBlockById i st) = Return b ->
        AbstractBlock._convertArgument int st argument = Done b)
  /\ (forall b,
        AbstractBlock._convertArgument int st argument = Done b ->
        (exists i, int argument = Some i /\ blocks.ID b = i
                   /\ result (blocks.getBlockById i st) = Return b)
        \/ (lower (blocks.NAME b) = lower argument
            /\ result (blocks.getBlock argument true st) = Return b))
  /\ (AbstractBlock._convertArgument int st argument
      = Failed (ConverterError "Block" argument) <->
      (forall i, int argument = Some i -> ~ In i (blocks.getAllBlockIds st))
      /\ (forall e, In e (dict_values (blocks._blockDict st)) ->
                    lower (blocks.NAME e) <> lower argument)).
Proof.
  intros R. pose proof (blocks_reachable_wf st R) as W.
  rewrite blocks_convertArgument_eq. cbv zeta.
  assert (names : blocks.scan (blocks._blockDict st) argument = None <->
                  forall e, In e (dict_values (blocks._blockDict st)) ->
                            lower (blocks.NAME e) <> lower argument).
  { rewrite blocks_scan_None. split.
    - intros H e He. apply values_In in He. destruct He as [n He].
      rewrite (proj1 (blocks_wf_dict W n e He)). now apply (H n e).
    - intros H n e He. rewrite <- (proj1 (blocks_wf_dict W n e He)).
      apply H. eapply In_values; eauto. }
  assert (by_name : forall b,
            blocks.scan (blocks._blockDict st) argument = Some b ->
            lower (blocks.NAME b) = lower argument
            /\ result (blocks.getBlock argument true st) = Return b).
  { intros b S. split.
    - apply blocks_scan_Some in S. destruct S as [n [H M]].
      now rewrite (proj1 (blocks_wf_dict W n b H)).
    - rewrite blocks_getBlock_scan, S. reflexivity. }
  split; [|split; [|split]].
  - intros e.
    destruct (int argument) as [i|];
      [destruct (dict_get Z.eqb i (blocks._blockIds st))|];
      try discriminate;
      destruct (blocks.scan (blocks._blockDict st) argument);
      try discriminate; intros [= <-]; reflexivity.
  - intros i b -> H. rewrite blocks_getBlockById_result in H.
    destruct (dict_get Z.eqb i (blocks._blockIds st)); congruence.
  - intros b.
    destruct (int argument) as [i|] eqn:I.
    + destruct (dict_get Z.eqb i (blocks._blockIds st)) as [b'|] eqn:G.
      * intros [= <-]. left. exists i. split; [reflexivity|].
        split.
        -- apply (dict_get_In Z.eqb Z.eqb_eq) in G.
           exact (proj1 (blocks_wf_cache W i b' G)).
        -- rewrite blocks_getBlockById_result, G. reflexivity.
      * destruct (blocks.scan (blocks._blockDict st) argument) eqn:S;
          [|discriminate].
        intros [= <-]. right. now apply by_name.
    + destruct (blocks.scan (blocks._blockDict st) argument) eqn:S;
        [|discriminate].
      intros [= <-]. right. now apply by_name.
  - rewrite <- names. split.
    + intros H. destruct (int argument) as [i|].
      * destruct (dict_get Z.eqb i (blocks._blockIds st)) eqn:G;
          [discriminate|].
        split.
        -- intros j [= <-]. now apply (dict_get_None Z.eqb Z.eqb_eq).
        -- destruct (blocks.scan (blocks._blockDict st) argument);
             [discriminate | reflexivity].
      * split; [discriminate|].
        destruct (blocks.scan (blocks._blockDict st) argument);
          [discriminate | reflexivity].
    + intros [Hi Hn]. rewrite Hn. destruct (int argument) as [i|]; [|reflexivity].
      specialize (Hi i eq_refl).
      apply (dict_get_None Z.eqb Z.eqb_eq) in Hi. now rewrite Hi.
Qed.

(* "2" is both an id and, here, the name of another block: the id wins *)
Lemma blocks_convertArgument_witness :
  AbstractBlock._convertArgument int_of_digits
    (blocks_after [stoneA; stone_caps; mkBlock "2" 7 moduleA false]) "2"
  = Done stone_caps.
Proof.
  refine (proj1 (proj2 (blocks_convertArgument_spec int_of_digits
                          (blocks_after [stoneA; stone_caps;
                                         mkBlock "2" 7 moduleA false]) "2" _))
            2 stone_caps eq_refl eq_refl).
  apply (@blocks_reach_register (mkBlock "2" 7 moduleA false) caps_registry).
  exact caps_registry_reachable.
Defined.

Lemma packets_scan_None_names d st q :
  packets_reachable d st ->
  (packet.scan (packet._packetDict st) q = None <->
   forall e, In e (dict_values (packet._packetDict st)) ->
             lower (packet.NAME e) <> lower q).
Proof.
  intros R. pose proof (packets_reachable_wf d st R) as W.
  rewrite packets_scan_None. split.
  - intros H e He. apply values_In in He. destruct He as [n He].
    rewrite (packets_wf_dict W n e He). now apply (H n e).
  - intros H n e He. rewrite <- (packets_wf_dict W n e He).
    apply H. eapply In_values; eauto.
Qed.

(** X9: the converter of request packets finds exactly the packets of the
    request manager, whatever the response manager holds, and the converter
    of response packets the other way round: each returns the first packet
    of its own manager whose name is the argument up to letter case and
    fails, with ConverterError only, exactly when its own manager has no
    such name. *)
Theorem packets_convertArgument_spec dq dp req res argument :
  packets_reachable dq req ->
  packets_reachable dp res ->
  let PacketManager :=
    {| packet.RequestManager := req; packet.ResponseManager := res |} in
  (forall p,
     AbstractRequestPacket._convertArgument PacketManager argument = Done p <->
     result (packet.getPacket argument true req) = Return p)
  /\ (AbstractRequestPacket._convertArgument PacketManager argument
      = Failed (ConverterError "Request Packet" argument) <->
      forall e, In e (dict_values (packet._packetDict req)) ->
                lower (packet.NAME e) <> lower argument)
  /\ (forall e,
        AbstractRequestPacket._convertArgument PacketManager argument
        = Failed e -> e = ConverterError "Request Packet" argument)
  /\ (forall p,
        AbstractResponsePacket._convertArgument PacketManager argument = Done p
        <-> result (packet.getPacket argument true res) = Return p)
  /\ (AbstractResponsePacket._convertArgument PacketManager argument
      = Failed (ConverterError "Response Packet" argument) <->
      forall e, In e (dict_values (packet._packetDict res)) ->
                lower (packet.NAME e) <> lower argument)
  /\ (forall e,
        AbstractResponsePacket._convertArgument PacketManager argument
        = Failed e -> e = ConverterError "Response Packet" argument).
Proof.
  intros Rq Rp. cbv zeta.
  pose proof (packets_scan_None_names dq req argument Rq) as Kq.
  pose proof (packets_scan_None_names dp res argument Rp) as Kp.
  unfold AbstractRequestPacket._convertArgument,
    AbstractResponsePacket._convertArgument, call. simpl.
  rewrite <- Kq, <- Kp. rewrite !packets_getPacket_scan.
  destruct (packet.scan (packet._packetDict req) argument);
    destruct (packet.scan (packet._packetDict res) argument); simpl;
    repeat split; intros; try congruence; try discriminate.
Qed.

(* "SetClickDistance" is a response packet: the request converter fails on
   it, the response converter finds it *)
Lemma packets_convertArgument_witness :
  AbstractRequestPacket._convertArgument
    {| packet.RequestManager := movement_registry;
       packet.ResponseManager := network.Response cpe_server |}
    "setclickdistance"
  = Failed (ConverterError "Request Packet" "setclickdistance")
  /\ AbstractResponsePacket._convertArgument
       {| packet.RequestManager := movement_registry;
          packet.ResponseManager := network.Response cpe_server |}
       "setclickdistance"
     = Done (clickdistance.SetClickDistancePacket moduleA).
Proof.
  assert (R : packets_reachable packet.RESPONSE (network.Response cpe_server)).
  { apply (@packets_reach_register packet.RESPONSE
             (texthotkey.SetTextHotKeyPacket moduleB)).
    apply (@packets_reach_register packet.RESPONSE
             (clickdistance.SetClickDistancePacket moduleA)).
    constructor. }
  destruct (packets_convertArgument_spec packet.REQUEST packet.RESPONSE
              movement_registry (network.Response cpe_server)
              "setclickdistance" movement_registry_reachable R)
    as (_ & F & _ & D & _).
  split.
  - apply F. intros e [<-|[]]. discriminate.
  - apply D. reflexivity.
Defined.

(** ** More on the fixed-width strings *)

Lemma substring_length n s :
  String.length (substring 0 n s) = Nat.min n (String.length s).
Proof.
  revert n. induction s as [|c r IH]; intros [|n]; simpl; try reflexivity.
  now rewrite IH.
Qed.

Lemma is_ascii_append a b :
  is_ascii (a ++ b)%string = is_ascii a && is_ascii b.
Proof.
  induction a as [|c r IH]; simpl; [reflexivity|].
  rewrite IH. apply andb_assoc.
Qed.

Lemma is_ascii_spaces k : is_ascii (packet.spaces k) = true.
Proof. induction k; simpl; auto. Qed.

Lemma encode_ascii_cases s :
  packet.encode_ascii s
  = if is_ascii s then Some (list_byte_of_string s) else None.
Proof.
  induction s as [|c r IH]; simpl; [reflexivity|].
  destruct (N_of_ascii c <? 128)%N; simpl; [|reflexivity].
  rewrite IH. destruct (is_ascii r); reflexivity.
Qed.

Lemma list_byte_of_string_append a b :
  list_byte_of_string (a ++ b)%string
  = list_byte_of_string a ++ list_byte_of_string b.
Proof.
  unfold list_byte_of_string.
  induction a as [|c r IH]; simpl; [reflexivity | now rewrite IH].
Qed.

Lemma list_byte_of_string_spaces k :
  list_byte_of_string (packet.spaces k) = repeat " "%byte k.
Proof.
  unfold list_byte_of_string.
  induction k as [|k IH]; simpl; [reflexivity | now rewrite IH].
Qed.

(* [packageString] at a width that is not negative *)
Lemma packageString_prefix s maxSize :
  0 <= maxSize ->
  packet.packageString s maxSize
  = (if is_ascii (substring 0 (Z.to_nat maxSize) s)
     then Return (list_byte_of_string (substring 0 (Z.to_nat maxSize) s)
                  ++ repeat " "%byte
                       (Z.to_nat maxSize
                        - String.length (substring 0 (Z.to_nat maxSize) s)))
     else Raise UnicodeEncodeError).
Proof.
  intros P. unfold packet.packageString, packet.slice_to, packet.ljust.
  assert (Hpos : (0 <=? maxSize) = true) by (apply Z.leb_le; lia).
  rewrite Hpos, encode_ascii_cases, is_ascii_append, is_ascii_spaces.
  rewrite andb_true_r.
  destruct (is_ascii (substring 0 (Z.to_nat maxSize) s)); [|reflexivity].
  now rewrite list_byte_of_string_append, list_byte_of_string_spaces.
Qed.

Lemma packageString_length s maxSize bytes :
  0 <= maxSize ->
  packet.packageString s maxSize = Return bytes ->
  List.length bytes = Z.to_nat maxSize.
Proof.
  intros P. rewrite (packageString_prefix s maxSize P).
  destruct (is_ascii (substring 0 (Z.to_nat maxSize) s)); [|discriminate].
  intros [= <-].
  rewrite length_app, list_byte_of_string_length, repeat_length.
  rewrite substring_length. lia.
Qed.

(** X10: for a width that is not negative, [packageString] looks at the
    first [maxSize] characters only.  When they are all ASCII it returns
    exactly [maxSize] bytes: those characters followed by spaces; when one
    of them is not, it raises UnicodeEncodeError.  Characters beyond the
    width are cut without notice and never make it fail. *)
Theorem packageString_shape data maxSize :
  0 <= maxSize ->
  let kept := substring 0 (Z.to_nat maxSize) data in
  packet.packageString data maxSize
  = (if is_ascii kept
     then Return (list_byte_of_string kept
                  ++ repeat " "%byte (Z.to_nat maxSize - String.length kept))
     else Raise UnicodeEncodeError)
  /\ (forall bytes,
        packet.packageString data maxSize = Return bytes ->
        List.length bytes = Z.to_nat maxSize)
  /\ packet.packageString kept maxSize = packet.packageString data maxSize.
Proof.
  intros P. cbv zeta.
  split; [now apply packageString_prefix|]. split.
  - intros bytes. now apply packageString_length.
  - rewrite (packageString_prefix data maxSize P),
      (packageString_prefix (substring 0 (Z.to_nat maxSize) data) maxSize P).
    rewrite (substring_all (Z.to_nat maxSize)
               (substring 0 (Z.to_nat maxSize) data)); [reflexivity|].
    rewrite substring_length. lia.
Qed.

Lemma packageString_shape_witness :
  packet.packageString "Notch the miner" 5
  = Return ["N"%byte; "o"%byte; "t"%byte; "c"%byte; "h"%byte].
Proof.
  refine (proj1 (packageString_shape "Notch the miner" 5 _)). lia.
Defined.

Lemma plain_text_lstrip s :
  plain_text s = true -> plain_text (packet.lstrip s) = true.
Proof.
  induction s as [|c r IH]; simpl; [auto|].
  intros H. destruct (packet.isspace c); [|exact H].
  apply andb_true_iff in H. apply IH, H.
Qed.

Lemma plain_text_rstrip s :
  plain_text s = true -> plain_text (packet.rstrip s) = true.
Proof.
  induction s as [|c r IH]; simpl; [auto|].
  intros H. apply andb_true_iff in H. destruct H as [Hc Hr].
  specialize (IH Hr). destruct (packet.rstrip r).
  - destruct (packet.isspace c); simpl; [reflexivity|].
    now rewrite Hc.
  - simpl. simpl in IH. now rewrite Hc, IH.
Qed.

Lemma rstrip_length s : (String.length (packet.rstrip s) <= String.length s)%nat.
Proof.
  induction s as [|c r IH]; simpl; [lia|].
  destruct (packet.rstrip r); [destruct (packet.isspace c)|]; simpl in *; lia.
Qed.

Lemma plain_text_decoded data :
  plain_text (string_of_list_byte (filter decodable data)) = true.
Proof.
  unfold string_of_list_byte.
  induction data as [|b r IH]; simpl; [reflexivity|].
  destruct (decodable b) eqn:D; [|exact IH].
  simpl. rewrite IH, andb_true_r.
  unfold decodable in D.
  rewrite <- (byte_of_ascii_of_byte b) in D.
  now rewrite byte_of_ascii_nul, byte_of_ascii_to_N in D.
Qed.

Lemma decoded_length data :
  (String.length (string_of_list_byte (filter decodable data))
   <= List.length data)%nat.
Proof.
  unfold string_of_list_byte.
  induction data as [|b r IH]; simpl; [lia|].
  destruct (decodable b); simpl; lia.
Qed.

(** X11: what [unpackString] returns is ASCII text without NUL, no longer
    than the bytes it came from, and it survives the way back: packed at
    the width of the original bytes it gives as many bytes, and these
    unpack to the same text. *)
Theorem unpackString_repacks data :
  plain_text (packet.unpackString data) = true
  /\ (String.length (packet.unpackString data) <= List.length data)%nat
  /\ exists bytes,
       packet.packageString (packet.unpackString data)
         (Z.of_nat (List.length data)) = Return bytes
       /\ List.length bytes = List.length data
       /\ packet.unpackString bytes = packet.unpackString data.
Proof.
  assert (P : plain_text (packet.unpackString data) = true).
  { unfold packet.unpackString, packet.strip. rewrite decode_ignore_filter.
    apply plain_text_lstrip, plain_text_rstrip, plain_text_decoded. }
  assert (L : (String.length (packet.unpackString data) <= List.length data)%nat).
  { unfold packet.unpackString, packet.strip. rewrite decode_ignore_filter.
    pose proof (lstrip_length
                  (packet.rstrip (string_of_list_byte (filter decodable data)))).
    pose proof (rstrip_length (string_of_list_byte (filter decodable data))).
    pose proof (decoded_length data). lia. }
  split; [exact P|]. split; [exact L|].
  destruct (packageString_unpackString (packet.unpackString data)
              (Z.of_nat (List.length data))) as (bytes & E & Lb & U).
  - lia.
  - exact P.
  - unfold packet.unpackString at 2.
    destruct (strip_stripped
                (packet.decode_ignore (packet.replace_nul data))) as [Hl Hr].
    unfold packet.strip at 1. fold (packet.unpackString data).
    unfold packet.unpackString. now rewrite Hr, Hl.
  - exists bytes. rewrite Nat2Z.id in Lb. auto.
Qed.

(** ** What the two packets serialize to *)

(** X12: [SetClickDistancePacket.serialize] returns exactly when the
    distance is a signed 16-bit number, and raises the struct error
    otherwise.  What it returns has the three bytes [SIZE] announces: the
    packet id 0x12 and the distance, high byte first, from which the
    distance reads back. *)
Theorem SetClickDistance_serialize_spec m distance :
  AbstractPacket.SIZE (clickdistance.SetClickDistancePacket m) = Return 3%nat
  /\ clickdistance.serialize (clickdistance.SetClickDistancePacket m) distance
     = (if (-32768 <=? distance) && (distance <=? 32767)
        then Return (x12 :: struct.be_bytes 2 (distance mod 2 ^ 16))
        else Raise StructError)
  /\ (forall data,
        clickdistance.serialize (clickdistance.SetClickDistancePacket m) distance
        = Return data ->
        List.length data = 3%nat
        /\ exists high low,
             data = [x12; high; low]
             /\ struct.signed 16 (struct.be_value [high; low]) = distance).
Proof.
  assert (E : clickdistance.serialize
                (clickdistance.SetClickDistancePacket m) distance
              = (if (-32768 <=? distance) && (distance <=? 32767)
                 then Return (x12 :: struct.be_bytes 2 (distance mod 2 ^ 16))
                 else Raise StructError)).
  { unfold clickdistance.serialize, struct.pack_format.
    change (struct.parse_format
              (packet.FORMAT (clickdistance.SetClickDistancePacket m)))
      with (Some [struct.Code_B; struct.Code_h]).
    cbn [struct.pack struct.pack_one packet.ID
         clickdistance.SetClickDistancePacket].
    change ((0 <=? 18) && (18 <=? 255)) with true. cbv iota.
    destruct ((-32768 <=? distance) && (distance <=? 32767)); reflexivity. }
  split; [reflexivity|]. split; [exact E|].
  intros data. rewrite E.
  destruct ((-32768 <=? distance) && (distance <=? 32767)) eqn:R;
    [|discriminate].
  intros [= <-]. split; [reflexivity|].
  apply andb_true_iff in R. destruct R as [Lo Hi].
  apply Z.leb_le in Lo, Hi.
  eexists; eexists. split; [reflexivity|].
  change (struct.signed 16
            (struct.be_value (struct.be_bytes 2 (distance mod 2 ^ 16)))
          = distance).
  rewrite (be_value_bytes 2)
    by (change (256 ^ Z.of_nat 2) with (2 ^ 16); apply Z.mod_pos_bound; lia).
  apply signed_mod; simpl; lia.
Qed.

Lemma SetClickDistance_serialize_witness :
  clickdistance.serialize (clickdistance.SetClickDistancePacket moduleA) 160
  = Return [x12; x00; xa0]
  /\ List.length [x12; x00; xa0] = 3%nat
  /\ exists high low,
       [x12; x00; xa0] = [x12; high; low]
       /\ struct.signed 16 (struct.be_value [high; low]) = 160.
Proof.
  split; [reflexivity|].
  apply (proj2 (proj2 (SetClickDistance_serialize_spec moduleA 160))).
  reflexivity.
Defined.

(** X13: [SetTextHotKeyPacket.serialize] looks at the first 64 characters of
    the label and of the action only.  It raises UnicodeEncodeError when one
    of these is not ASCII, the struct error when the key code is no signed
    32-bit number or the key modifiers no unsigned byte, and otherwise
    returns the 134 bytes [SIZE] announces: the packet id 0x15, the label
    and the action each padded with spaces to 64 bytes, the key code in four
    bytes and the modifiers in one. *)
Theorem SetTextHotKey_serialize_spec m label action keyCode keyMods :
  let label' := substring 0 64 label in
  let action' := substring 0 64 action in
  AbstractPacket.SIZE (texthotkey.SetTextHotKeyPacket m) = Return 134%nat
  /\ texthotkey.serialize (texthotkey.SetTextHotKeyPacket m)
       label action keyCode keyMods
     = (if negb (is_ascii label' && is_ascii action')
        then Raise UnicodeEncodeError
        else if (-2147483648 <=? keyCode) && (keyCode <=? 2147483647)
                && ((0 <=? keyMods) && (keyMods <=? 255))
        then Return
               (x15
                :: (list_byte_of_string label'
                    ++ repeat " "%byte (64 - String.length label'))
                ++ (list_byte_of_string action'
                    ++ repeat " "%byte (64 - String.length action'))
                ++ struct.be_bytes 4 (keyCode mod 2 ^ 32)
                ++ struct.be_bytes 1 keyMods)
        else Raise StructError)
  /\ (forall data,
        texthotkey.serialize (texthotkey.SetTextHotKeyPacket m)
          label action keyCode keyMods = Return data ->
        List.length data = 134%nat).
Proof.
  cbv zeta.
  assert (E : texthotkey.serialize (texthotkey.SetTextHotKeyPacket m)
                label action keyCode keyMods
              = (if negb (is_ascii (substring 0 64 label)
                          && is_ascii (substring 0 64 action))
                 then Raise UnicodeEncodeError
                 else if (-2147483648 <=? keyCode) && (keyCode <=? 2147483647)
                         && ((0 <=? keyMods) && (keyMods <=? 255))
                 then Return
                        (x15
                         :: (list_byte_of_string (substring 0 64 label)
                             ++ repeat " "%byte
                                  (64 - String.length (substring 0 64 label)))
                         ++ (list_byte_of_string (substring 0 64 action)
                             ++ repeat " "%byte
                                  (64 - String.length (substring 0 64 action)))
                         ++ struct.be_bytes 4 (keyCode mod 2 ^ 32)
                         ++ struct.be_bytes 1 keyMods)
                 else Raise StructError)).
  { unfold texthotkey.serialize, struct.pack_format.
    change (struct.parse_format
              (packet.FORMAT (texthotkey.SetTextHotKeyPacket m)))
      with (Some [struct.Code_B; struct.Code_s 64; struct.Code_s 64;
                  struct.Code_i; struct.Code_B]).
    destruct (packet.packageString label 64) as [l|e] eqn:Pl.
    - destruct (packet.packageString action 64) as [a|e] eqn:Pa.
      + pose proof (packageString_length label 64 l ltac:(lia) Pl) as Ll.
        pose proof (packageString_length action 64 a ltac:(lia) Pa) as La.
        rewrite packageString_prefix in Pl, Pa by lia.
        change (Z.to_nat 64) with 64%nat in *.
        destruct (is_ascii (substring 0 64 label)); [|discriminate].
        destruct (is_ascii (substring 0 64 action)); [|discriminate].
        injection Pl as Pl. injection Pa as Pa.
        cbn [struct.pack struct.pack_one packet.ID
             texthotkey.SetTextHotKeyPacket negb andb].
        change ((0 <=? 21) && (21 <=? 255)) with true. cbv iota.
        rewrite (fit_exact 64 l Ll), (fit_exact 64 a La).
        destruct ((-2147483648 <=? keyCode) && (keyCode <=? 2147483647));
          [|reflexivity].
        destruct ((0 <=? keyMods) && (keyMods <=? 255)); [|reflexivity].
        simpl andb. cbv iota. rewrite <- Pl, <- Pa.
        rewrite app_nil_r. reflexivity.
      + rewrite packageString_prefix in Pa by lia.
        change (Z.to_nat 64) with 64%nat in *.
        destruct (is_ascii (substring 0 64 action)); [discriminate|].
        injection Pa as <-. rewrite andb_false_r. reflexivity.
    - rewrite packageString_prefix in Pl by lia.
      change (Z.to_nat 64) with 64%nat in *.
      destruct (is_ascii (substring 0 64 label)); [discriminate|].
      injection Pl as <-. reflexivity. }
  split; [reflexivity|]. split; [exact E|].
  intros data. rewrite E.
  destruct (negb (is_ascii (substring 0 64 label)
                  && is_ascii (substring 0 64 action))); [discriminate|].
  destruct ((-2147483648 <=? keyCode) && (keyCode <=? 2147483647)
            && ((0 <=? keyMods) && (keyMods <=? 255))); [|discriminate].
  intros H.
  assert (D : List.length data
              = List.length
                  (x15
                   :: (list_byte_of_string (substring 0 64 label)
                       ++ repeat " "%byte
                            (64 - String.length (substring 0 64 label)))
                   ++ (list_byte_of_string (substring 0 64 action)
                       ++ repeat " "%byte
                            (64 - String.length (substring 0 64 action)))
                   ++ struct.be_bytes 4 (keyCode mod 2 ^ 32)
                   ++ struct.be_bytes 1 keyMods)) by congruence.
  rewrite D. cbn [List.length].
  rewrite !length_app, !list_byte_of_string_length, !repeat_length,
    !be_bytes_length, !substring_length. lia.
Qed.

Lemma SetTextHotKey_serialize_witness :
  texthotkey.serialize (texthotkey.SetTextHotKeyPacket moduleB)
    "home" "/spawn" 35 256
  = Raise StructError.
Proof.
  exact (proj1 (proj2 (SetTextHotKey_serialize_spec moduleB
                         "home" "/spawn" 35 256))).
Defined.

(** ** The join-time senders in general *)










(** X15: [sendClickDistance] asks for no capability.  Where
    "SetClickDistance" is a registered response packet it returns and hands
    the dispatcher exactly one packet for the joining player, carrying the
    click distance of the world; where it is not, it raises the KeyError of
    the lookup and sends nothing.  The registry is never changed. *)
Theorem sendClickDistance_spec self p s :
  (forall pk,
     result (packet.getPacket "SetClickDistance" true (network.Response s))
     = Return pk ->
     result (clickdistance.sendClickDistance self p s) = Return tt
     /\ network.Response (state_after (clickdistance.sendClickDistance self p s))
        = network.Response s
     /\ network.outbox (state_after (clickdistance.sendClickDistance self p s))
        = network.outbox s
          ++ [{| network.receiver := p;
                 network.sentPacket := pk;
                 network.sentArgs :=
                   [network.AInt
                      (clickdistance.distance
                         (clickdistance.clickDistance
                            (clickdistance.world self)))] |}])
  /\ (forall e,
        result (packet.getPacket "SetClickDistance" true (network.Response s))
        = Raise e ->
        result (clickdistance.sendClickDistance self p s) = Raise e
        /\ state_after (clickdistance.sendClickDistance self p s) = s).
Proof.
  split.
  - intros pk.
    unfold clickdistance.sendClickDistance, clickdistance.setClickDistance,
      network.Packets_Response, network.sendPacket.
    run_method.
    destruct (packet.getPacket "SetClickDistance" true (network.Response s))
      as [[r st] l].
    simpl. intros ->. simpl. auto.
  - intros e.
    unfold clickdistance.sendClickDistance, clickdistance.setClickDistance,
      network.Packets_Response, network.sendPacket.
    run_method.
    destruct (packet.getPacket "SetClickDistance" true (network.Response s))
      as [[r st] l].
    simpl. intros ->. simpl. auto.
Qed.

Lemma sendClickDistance_witness :
  result (clickdistance.sendClickDistance spawn alex
            {| network.Response := movement_registry; network.outbox := [] |})
  = Raise (KeyError "SetClickDistance")
  /\ state_after
       (clickdistance.sendClickDistance spawn alex
          {| network.Response := movement_registry; network.outbox := [] |})
     = {| network.Response := movement_registry; network.outbox := [] |}.
Proof.
  apply (proj2 (sendClickDistance_spec spawn alex
                  {| network.Response := movement_registry;
                     network.outbox := [] |})).
  reflexivity.
Defined.

(** ** The check of the configured hotkeys *)







(** ** The click distance of a world, read and written *)

(** X17: the metadata reader returns exactly where the dictionary has the
    key "distance", with that distance, and raises the KeyError otherwise;
    the writer stores the distance alone.  Reading what was written gives
    the metadata back, and writing what was read keeps the distance and
    drops every other key. *)
Theorem click_distance_metadata_round_trip :
  (forall m,
     ClickDistanceModule.readClickDistance
       (ClickDistanceModule.writeClickDistance m) = Return m)
  /\ (forall data m,
        ClickDistanceModule.readClickDistance data = Return m <->
        dict_get String.eqb "distance" data
        = Some (ClickDistanceModule.getClickDistance m))
  /\ (forall data,
        ClickDistanceModule.readClickDistance data
        = Raise (KeyError "distance") <->
        dict_in String.eqb "distance" data = false)
  /\ (forall data m,
        ClickDistanceModule.readClickDistance data = Return m ->
        ClickDistanceModule.writeClickDistance m
        = [("distance", ClickDistanceModule.getClickDistance m)]
        /\ dict_get String.eqb "distance"
             (ClickDistanceModule.writeClickDistance m)
           = dict_get String.eqb "distance" data).
Proof.
  split; [|split; [|split]].
  - intros [d]. reflexivity.
  - intros data [d]. unfold ClickDistanceModule.readClickDistance,
      ClickDistanceModule.setClickDistance, ClickDistanceModule.getClickDistance.
    destruct (dict_get String.eqb "distance" data); simpl;
      split; intros H; try discriminate; congruence.
  - intros data. unfold ClickDistanceModule.readClickDistance, dict_in.
    destruct (dict_get String.eqb "distance" data); split; congruence.
  - intros data [d]. unfold ClickDistanceModule.readClickDistance,
      ClickDistanceModule.setClickDistance.
    destruct (dict_get String.eqb "distance" data); [|discriminate].
    intros [= ->]. split; reflexivity.
Qed.

Lemma click_distance_metadata_witness :
  ClickDistanceModule.writeClickDistance {| clickdistance.distance := 96 |}
  = [("distance", 96)]
  /\ dict_get String.eqb "distance"
       (ClickDistanceModule.writeClickDistance
          {| clickdistance.distance := 96 |})
     = dict_get String.eqb "distance" [("spawn", 0); ("distance", 96)].
Proof.
  apply (proj2 (proj2 (proj2 click_distance_metadata_round_trip))
           [("spawn", 0); ("distance", 96)]).
  reflexivity.
Defined.

(** ** The warning for white space in a name *)

Lemma has_space_iff s :
  has_space s = true <-> exists a b, s = (a ++ String " " b)%string.
Proof.
  induction s as [|c r IH]; simpl.
  - split; [discriminate|]. intros ([|x a] & b & H); discriminate.
  - destruct (Ascii.eqb_spec c " ") as [->|N]; simpl.
    + split; [intros _ | reflexivity]. exists EmptyString, r. reflexivity.
    + rewrite IH. split.
      * intros (a & b & ->). exists (String c a), b. reflexivity.
      * intros ([|x a] & b & H); simpl in H; injection H as -> ->.
        -- contradiction.
        -- eauto.
Qed.

Ltac settle_log H :=
  simpl in H;
  repeat (destruct H as [H|H];
          [first [discriminate H | injection H as <-; auto]|]);
  try contradiction.

(** X18: both [register] methods log the white-space warning exactly when
    the name of the entry contains a space, and then for that name,
    whether the registration goes through or is refused afterwards. *)
Theorem whitespace_warning_iff :
  (forall b st n,
     In (WARN, WhiteSpaceInName n) (logged (blocks.register b st)) <->
     n = blocks.NAME b
     /\ exists x y, blocks.NAME b = (x ++ String " " y)%string)
  /\ (forall p st n,
        In (WARN, WhiteSpaceInName n) (logged (packet.register p st)) <->
        n = packet.NAME p
        /\ exists x y, packet.NAME p = (x ++ String " " y)%string).
Proof.
  split.
  - intros b st n. rewrite <- has_space_iff.
    unfold blocks.register. run_method.
    destruct (dict_in Z.eqb (blocks.ID b) (blocks._blockIds st)) eqn:Hi;
      destruct (dict_in String.eqb (blocks.NAME b) (blocks._blockDict st)) eqn:Hn;
      pose proof Hi as Hg;
      [ apply (dict_in_true Z.eqb) in Hg; destruct Hg as [old Hg]
      | apply (dict_in_true Z.eqb) in Hg; destruct Hg as [old Hg]
      | apply (dict_in_false Z.eqb) in Hg
      | apply (dict_in_false Z.eqb) in Hg ];
      destruct (has_space (blocks.NAME b)); destruct (blocks.OVERRIDE b); simpl;
      repeat (progress (rewrite ?Hi, ?Hn, ?Hg, ?andb_false_r, ?orb_true_r;
                        simpl));
      (split; [intros H; settle_log H | intros [-> H]; first [discriminate H | simpl; tauto]]).
  - intros p st n. rewrite <- has_space_iff.
    run_register.
    pose proof (packets_override_test p st) as T.
    destruct (has_space (packet.NAME p)); destruct (packet.OVERRIDE p); simpl;
      rewrite ?T; simpl;
      destruct (dict_in String.eqb (packet.NAME p) (packet._packetDict st));
      simpl;
      try destruct (existsb (Z.eqb (packet.ID p)) (packet.getAllPacketIds st));
      simpl;
      try destruct (packet.skeleton p) as [[|]|]; simpl;
      try destruct (packet.loopPackets st); simpl;
      try destruct (packet.scan (packet._packetDict st) "loopPackets"); simpl;
      (split; [intros H; settle_log H | intros [-> H]; first [discriminate H | simpl; tauto]]).
Qed.

Lemma whitespace_warning_witness :
  In (WARN, WhiteSpaceInName "Grass Block")
    (logged (blocks.register (mkBlock "Grass Block" 2 moduleA false)
               stone_registry)).
Proof.
  apply (proj1 whitespace_warning_iff).
  split; [reflexivity|]. exists "Grass", "Block". reflexivity.
Defined.
